(** * Pointer queue (ptr_queue): a shallow embedding of main.c

    The queue of main.c is a ring of [array_capacity] pointer slots
    addressed by two 32-bit indices, [head] and [tail], guarded by one
    mutex.  This file embeds [pq_init], [pq_push], [pq_pop], [pq_len]
    and [pq_empty] as functions on an explicit queue state and proves
    the properties of the specification about them.

    Conventions of the embedding:
    - a pointer is its address, a [Z]; [NULL] is 0;
    - [__u32] fields are [Z] values kept below 2^32 by [wrap32], the
      [size_t] arguments of [pq_init] are [Z] values below 2^64
      ([wrap64], LP64 as on the systems the README supports), the
      [__s32] result of [pq_len] is obtained by [to_s32];
    - the [void **data] array is a [list Z] of [array_capacity] slots,
      read with [slot] and written with [store];
    - the handle is an [option ptr_queue]: [None] is the NULL handle;
    - [errno] is threaded explicitly;
    - the mutex is one boolean: [true] when another thread holds it at
      the time of the call.  A call that would pend on the mutex or on
      the condition variable yields [Blocks]. *)

From Stdlib Require Import ZArith List Lia Bool.
From stdpp Require Import base list.

Open Scope Z_scope.

(** ** Machine integers, pointers, error numbers *)

Definition wrap32 (z : Z) : Z := z mod 2 ^ 32.
Definition wrap64 (z : Z) : Z := z mod 2 ^ 64.

(** Conversion of a 32-bit pattern to [__s32] (two's complement). *)
Definition to_s32 (z : Z) : Z := (z + 2 ^ 31) mod 2 ^ 32 - 2 ^ 31.

Definition NULL : Z := 0.
Definition EINVAL : Z := 22.
Definition ENOMEM : Z := 12.

(** [sizeof(struct ptr_queue)] and [sizeof(void * )] on LP64. *)
Definition sizeof_ptr_queue : Z := 128.
Definition sizeof_ptr : Z := 8.

(** ** The queue structure (main.h, [struct ptr_queue]) *)

Record ptr_queue : Type := mk_ptr_queue {
  mtx : bool;            (* mutex held by another thread *)
  sync_ready : bool;     (* pthread_mutex_init / pthread_cond_init done *)
  waiting : Z;
  data : list Z;
  buf : Z;
  head : Z;
  tail : Z;
  array_capacity : Z;
  user_capacity : Z
}.

Definition set_waiting (q : ptr_queue) (w : Z) : ptr_queue :=
  mk_ptr_queue (mtx q) (sync_ready q) w (data q) (buf q) (head q) (tail q)
               (array_capacity q) (user_capacity q).

Definition set_sync_ready (q : ptr_queue) : ptr_queue :=
  mk_ptr_queue (mtx q) true (waiting q) (data q) (buf q) (head q) (tail q)
               (array_capacity q) (user_capacity q).

Definition set_buf (q : ptr_queue) (b : Z) : ptr_queue :=
  mk_ptr_queue (mtx q) (sync_ready q) (waiting q) (data q) b (head q) (tail q)
               (array_capacity q) (user_capacity q).

(** [pq->data[i]]: reading outside the array is undefined in C; the
    embedding returns [NULL] there.  [index_in_bounds] below shows that
    no operation on a well-formed queue does so. *)
Definition slot (q : ptr_queue) (i : Z) : Z :=
  default NULL (data q !! Z.to_nat i).

(** [pq->data[i] = v]: a write outside the array (undefined in C)
    leaves the list as it is. *)
Definition store (d : list Z) (i : Z) (v : Z) : list Z :=
  <[Z.to_nat i := v]> d.

(** ** Results of a call *)

(** A call either returns a value, leaving the queue object and [errno]
    in a new state, or pends (on the mutex, or on the condition
    variable) in the state given. *)
Inductive outcome (A : Type) : Type :=
| Returns (rv : A) (pq : option ptr_queue) (errno : Z)
| Blocks (pq : option ptr_queue) (errno : Z).

Arguments Returns {A} rv pq errno.
Arguments Blocks {A} pq errno.

(** The exit of [pq_pop] that was taken.  The C function returns only
    the pointer; the exit is recorded beside it so that properties can
    name it.  [pop_observed] is what the caller sees. *)
Inductive pop_exit : Type :=
| PopTaken        (* STEP 4/5: an entry was removed *)
| PopEmpty        (* goto unlock: head == tail and !wait *)
| PopWouldBlock   (* goto end: pthread_mutex_trylock failed *)
| PopInvalid.     (* pq == NULL *)

(** ** pq_empty *)

Definition pq_empty (pq : option ptr_queue) (errno : Z) : outcome Z :=
  match pq with
  | None => Returns (-1) None EINVAL
  | Some q =>
      if mtx q then Blocks pq errno
      else Returns (if head q =? tail q then 1 else 0) pq errno
  end.

(** ** pq_len *)

Definition pq_len (pq : option ptr_queue) (errno : Z) : outcome Z :=
  match pq with
  | None => Returns (- EINVAL) None EINVAL
  | Some q =>
      if mtx q then Blocks pq errno
      else
        let rv :=
          if head q =? tail q then 0
          else if tail q >? head q then
            to_s32 (wrap32 (tail q - head q))
          else if head q >? tail q then
            to_s32 (wrap32 (wrap32 (array_capacity q - head q) + tail q))
          else 0 in
        Returns rv pq errno
  end.

(** ** pq_pop *)

Definition pq_pop (pq : option ptr_queue) (wait : Z) (errno : Z)
  : outcome (Z * pop_exit) :=
  match pq with
  | None => Returns (NULL, PopInvalid) None EINVAL
  | Some q =>
      if mtx q then
        (* STEP 2: lock pends, trylock fails *)
        if wait =? 0 then Returns (NULL, PopWouldBlock) pq errno
        else Blocks pq errno
      else if head q =? tail q then
        (* STEP 3 *)
        if wait =? 0 then Returns (NULL, PopEmpty) pq errno
        else Blocks (Some (set_waiting q 1)) errno
      else
        (* STEP 4 *)
        let rv := slot q (head q) in
        let d := store (data q) (head q) NULL in
        (* STEP 5 *)
        let h := wrap32 (head q + 1) in
        let h := if h >=? array_capacity q
                 then wrap32 (h - array_capacity q) else h in
        Returns (rv, PopTaken)
                (Some (mk_ptr_queue (mtx q) (sync_ready q) (waiting q) d
                         (buf q) h (tail q)
                         (array_capacity q) (user_capacity q)))
                errno
  end.

(** What the caller of [pq_pop] observes: the pointer and [errno]. *)
Definition pop_observed (o : outcome (Z * pop_exit)) : option (Z * Z) :=
  match o with
  | Returns (rv, _) _ e => Some (rv, e)
  | Blocks _ _ => None
  end.

(** ** pq_push *)

(** STEP 7 signals the condition variable when [waiting] is 1; the
    signal changes nothing in the queue object. *)
Definition pq_push (pq : option ptr_queue) (ptr : Z) (errno : Z)
  : outcome Z :=
  match pq with
  | None => Returns 1 None EINVAL
  | Some q =>
      if mtx q then Blocks pq errno
      else
        (* STEP 3 *)
        let new_tail := wrap32 (tail q + 1) in
        let new_tail := if new_tail >=? array_capacity q
                        then wrap32 (new_tail - array_capacity q)
                        else new_tail in
        (* STEP 4 *)
        if new_tail =? head q then Returns 1 pq ENOMEM
        else
          (* STEP 5, STEP 6 *)
          Returns 0
                  (Some (mk_ptr_queue (mtx q) (sync_ready q) (waiting q)
                           (store (data q) (tail q) ptr)
                           (buf q) (head q) new_tail
                           (array_capacity q) (user_capacity q)))
                  errno
  end.

(** ** The allocator *)

(** [supply] lists the addresses the next [calloc] calls return, 0 for
    a call that fails; [live] lists the blocks not yet freed.  A
    request whose size overflows [size_t] fails.  A request of zero
    bytes is served like any other: the C library of the supported
    systems returns a unique non-null pointer for it. *)
Record heap : Type := mk_heap {
  supply : list Z;
  live : list Z
}.

Definition calloc (nmemb size : Z) (h : heap) : Z * heap :=
  match supply h with
  | [] => (NULL, h)
  | a :: rest =>
      if (a =? NULL) || (2 ^ 64 <=? nmemb * size)
      then (NULL, mk_heap rest (live h))
      else (a, mk_heap rest (a :: live h))
  end.

Definition free (a : Z) (h : heap) : heap :=
  mk_heap (supply h) (List.remove Z.eq_dec a (live h)).

(** ** pq_init *)

(** The loop of STEP 4: [n] more iterations from index [i];
    [&pq->buf[i*obj_size]] is [b + i*obj_size], the product taken in
    [size_t].  The result of [pq_push] is not looked at. *)
Fixpoint init_fill (n : nat) (i obj_size b : Z)
    (pq : option ptr_queue) (errno : Z) : outcome unit :=
  match n with
  | O => Returns tt pq errno
  | S n' =>
      match pq_push pq (b + wrap64 (i * obj_size)) errno with
      | Returns _ pq' e' => init_fill n' (i + 1) obj_size b pq' e'
      | Blocks pq' e' => Blocks pq' e'
      end
  end.

(** The value returned is the heap after the call; the handle returned
    by the C function is the [pq] component of the outcome. *)
Definition pq_init (count obj_size : Z) (h : heap) (errno : Z)
  : outcome heap :=
  (* STEP 1 *)
  if count =? 0 then Returns h None EINVAL
  else
    (* STEP 2 *)
    let '(p, h1) := calloc 1 sizeof_ptr_queue h in
    if p =? NULL then Returns h1 None ENOMEM
    else
      let cap := wrap32 (wrap64 (count + 1)) in
      let ucap := wrap32 count in
      (* STEP 3 *)
      let '(d, h2) := calloc cap sizeof_ptr h1 in
      if d =? NULL then Returns (free p h2) None ENOMEM
      else
        let q := mk_ptr_queue false false 0
                   (replicate (Z.to_nat cap) NULL) NULL 0 0 cap ucap in
        (* STEP 4 *)
        if obj_size >? 0 then
          let '(b, h3) := calloc count obj_size h2 in
          if b =? NULL then Returns h3 (Some q) ENOMEM
          else
            match init_fill (Z.to_nat count) 0 obj_size b
                    (Some (set_buf q b)) errno with
            | Returns _ pq' e' =>
                Returns h3 (option_map set_sync_ready pq') e'
            | Blocks pq' e' => Blocks pq' e'
            end
        else Returns h2 (Some (set_sync_ready q)) errno.

(** ** Single-threaded runs *)

Inductive op : Type :=
| OpPush (ptr : Z)
| OpPop (wait : Z).

Inductive event : Type :=
| EvPush (ptr : Z) (rv : Z)
| EvPop (rv : Z) (via : pop_exit).

(** One thread issues [ops] in order.  A call that pends never returns
    in a single-threaded run, so the run ends there. *)
Fixpoint run (ops : list op) (pq : option ptr_queue) (errno : Z)
  : list event * option ptr_queue * Z :=
  match ops with
  | [] => ([], pq, errno)
  | OpPush p :: rest =>
      match pq_push pq p errno with
      | Returns rv pq' e' =>
          let '(evs, pq2, e2) := run rest pq' e' in
          (EvPush p rv :: evs, pq2, e2)
      | Blocks pq' e' => ([], pq', e')
      end
  | OpPop w :: rest =>
      match pq_pop pq w errno with
      | Returns (rv, via) pq' e' =>
          let '(evs, pq2, e2) := run rest pq' e' in
          (EvPop rv via :: evs, pq2, e2)
      | Blocks pq' e' => ([], pq', e')
      end
  end.

(** References accepted by successful pushes, in order. *)
Fixpoint pushed (evs : list event) : list Z :=
  match evs with
  | [] => []
  | EvPush p rv :: rest =>
      if rv =? 0 then p :: pushed rest else pushed rest
  | EvPop _ _ :: rest => pushed rest
  end.

(** References handed out by successful pops, in order. *)
Fixpoint popped (evs : list event) : list Z :=
  match evs with
  | [] => []
  | EvPop rv PopTaken :: rest => rv :: popped rest
  | _ :: rest => popped rest
  end.

(** ** Specification-level definitions *)

(** The ring invariant of the data model: both indices are inside the
    array, and the array has [array_capacity] slots. *)
Definition pq_wf (q : ptr_queue) : Prop :=
  0 < array_capacity q < 2 ^ 32 /\
  0 <= head q < array_capacity q /\
  0 <= tail q < array_capacity q /\
  Z.of_nat (length (data q)) = array_capacity q.

(** The length formula as the specification words it, over the
    integers: no wrap-around, no conversion. *)
Definition length_spec (q : ptr_queue) : Z :=
  if head q =? tail q then 0
  else if tail q >? head q then tail q - head q
  else (array_capacity q - head q) + tail q.

(** Index of the [i]-th live entry, counting from [head]. *)
Definition ring_idx (q : ptr_queue) (i : nat) : Z :=
  let j := head q + Z.of_nat i in
  if j <? array_capacity q then j else j - array_capacity q.

(** [represents q l]: the queue is well formed, its mutex is free, and
    the live entries, read from [head] round to [tail], are [l]. *)
Definition represents (q : ptr_queue) (l : list Z) : Prop :=
  pq_wf q /\
  mtx q = false /\
  user_capacity q = array_capacity q - 1 /\
  Z.of_nat (length l) = length_spec q /\
  forall (i : nat) (x : Z),
    l !! i = Some x -> data q !! Z.to_nat (ring_idx q i) = Some x.

(** The index after [i] as the code computes it, in 32 bits. *)
Definition advance (cap i : Z) : Z :=
  let n := wrap32 (i + 1) in
  if n >=? cap then wrap32 (n - cap) else n.

(** States the program can be in: the result of [pq_init] on [size_t]
    arguments, followed by any calls that return. *)
Inductive reachable : ptr_queue -> Prop :=
| reach_init count obj_size h e h' e' q :
    0 <= count < 2 ^ 64 -> 0 <= obj_size < 2 ^ 64 ->
    pq_init count obj_size h e = Returns h' (Some q) e' ->
    reachable q
| reach_push q p e rv q' e' :
    reachable q ->
    pq_push (Some q) p e = Returns rv (Some q') e' ->
    reachable q'
| reach_pop q w e r q' e' :
    reachable q ->
    pq_pop (Some q) w e = Returns r (Some q') e' ->
    reachable q'
| reach_len q e rv q' e' :
    reachable q ->
    pq_len (Some q) e = Returns rv (Some q') e' ->
    reachable q'
| reach_empty q e rv q' e' :
    reachable q ->
    pq_empty (Some q) e = Returns rv (Some q') e' ->
    reachable q'.

(** The addresses the pool initializer enqueues: [n] objects of
    [obj_size] bytes from index [i] of the region at [b]. *)
Fixpoint pool_refs (n : nat) (i obj_size b : Z) : list Z :=
  match n with
  | O => []
  | S n' => (b + wrap64 (i * obj_size)) :: pool_refs n' (i + 1) obj_size b
  end.

(** The queue object after STEP 3 of [pq_init], before the mutex and
    the condition variable are initialised. *)
Definition blank_queue (count : Z) : ptr_queue :=
  mk_ptr_queue false false 0
    (replicate (Z.to_nat (wrap32 (wrap64 (count + 1)))) NULL)
    NULL 0 0 (wrap32 (wrap64 (count + 1))) (wrap32 count).

(** The queue [pq_init count 0] builds when its allocations succeed. *)
Definition fresh_queue (count : Z) : ptr_queue :=
  set_sync_ready (blank_queue count).

(** A heap whose next allocations return the addresses given. *)
Definition heap_of (addrs : list Z) : heap := mk_heap addrs [].

Definition ev_pushed (p : Z) : event := EvPush p 0.
Definition ev_taken (x : Z) : event := EvPop x PopTaken.

(** Events of a first part of a run put before the result of the rest. *)
Definition prepend (evs : list event)
    (r : list event * option ptr_queue * Z)
  : list event * option ptr_queue * Z :=
  let '(evs', pq, e) := r in (evs ++ evs', pq, e).

(** ** The properties of the specification, as predicates *)

(** Capacity: on a queue made by [pq_init count 0], pushes succeed
    while fewer than [count] have been made, and the push after
    [count] successes is refused with [ENOMEM] (queue full). *)
Definition capacity_exact (count : Z) : Prop :=
  forall h e h' e' q,
    pq_init count 0 h e = Returns h' (Some q) e' ->
    forall ps p e0,
      Z.of_nat (length ps) <= count ->
      exists q1,
        run (map OpPush ps) (Some q) e0 = (map ev_pushed ps, Some q1, e0) /\
        if Z.of_nat (length ps) <? count
        then exists q2, pq_push (Some q1) p e0 = Returns 0 (Some q2) e0
        else pq_push (Some q1) p e0 = Returns 1 (Some q1) ENOMEM.

(** Conservation: after any run on a queue made by
    [pq_init count obj_size], [pq_len] returns the entries the
    initializer enqueued (none when [obj_size] is 0) plus the successful
    pushes minus the successful pops, and that is at most
    [user_capacity]. *)
Definition conservation (count obj_size : Z) : Prop :=
  forall h e h' e' q,
    pq_init count obj_size h e = Returns h' (Some q) e' ->
    (obj_size = 0 -> length_spec q = 0) /\
    forall ops e0,
      exists evs q1 e1,
        run ops (Some q) e0 = (evs, Some q1, e1) /\
        let n := length_spec q + Z.of_nat (length (pushed evs))
                 - Z.of_nat (length (popped evs)) in
        pq_len (Some q1) e1 = Returns n (Some q1) e1 /\
        n <= user_capacity q1.

(** Pool mode: when its three allocations succeed (the backing region
    at a non-null address [b], inside the address space),
    [pq_init count obj_size] returns a queue that reports length
    [count]; [count] non-blocking pops return distinct non-null
    addresses of objects inside the region; the next one finds the
    queue empty. *)
Definition pool_initialised (count obj_size : Z) : Prop :=
  forall p d b rest lv e,
    p <> NULL -> d <> NULL ->
    0 < b -> b + count * obj_size <= 2 ^ 64 ->
    exists q e',
      pq_init count obj_size (mk_heap (p :: d :: b :: rest) lv) e
        = Returns (mk_heap rest (b :: d :: p :: lv)) (Some q) e' /\
      buf q = b /\
      (forall e0, pq_len (Some q) e0 = Returns count (Some q) e0) /\
      exists addrs,
        Z.of_nat (length addrs) = count /\
        NoDup addrs /\
        Forall (fun a => a <> NULL /\ b <= a /\
                         a + obj_size <= b + count * obj_size) addrs /\
        forall e0, exists q1,
          run (map OpPop (replicate (length addrs) 0) ++ [OpPop 0])
              (Some q) e0
            = (map ev_taken addrs ++ [EvPop NULL PopEmpty], Some q1, e0).

(** The two failures of a non-blocking pop, lock contended and queue
    empty, look different to the caller. *)
Definition pop_failures_distinct : Prop :=
  forall q_held q_empty e,
    mtx q_held = true ->
    mtx q_empty = false -> head q_empty = tail q_empty ->
    pop_observed (pq_pop (Some q_held) 0 e)
      <> pop_observed (pq_pop (Some q_empty) 0 e).

(** The values of the concrete scenario. *)
Definition one_to_ten : list Z := [1; 2; 3; 4; 5; 6; 7; 8; 9; 10].

(** ** pq_free *)

(** The record keeps the array by its contents, so the two addresses
    the C code reads from the handle, that of the structure ([pq]
    itself) and that of the array ([pq->data]), are the arguments
    [self] and [data_addr].  The result of destroying the mutex and the
    condition variable is not looked at by the code.  After the call
    the object is gone: the function returns its value, the heap and
    [errno]. *)
Definition pq_free (self data_addr : Z) (pq : option ptr_queue)
    (h : heap) (errno : Z) : Z * heap * Z :=
  match pq with
  | None => (1, h, EINVAL)
  | Some q =>
      let h1 := if buf q =? NULL then h else free (buf q) h in
      let h2 := if data_addr =? NULL then h1 else free data_addr h1 in
      (0, free self h2, errno)
  end.

(** ** The single-threaded functions of testbench.c *)

Definition QUEUE_CAPACITY : Z := 10.
Definition ITERATIONS : Z := 10000.

(** The largest [int]. *)
Definition INT_MAX : Z := 2 ^ 31 - 1.

(** Each line a loop prints is recorded as the event it reports.  The
    loops have no bound of their own, so the embedding takes fuel:
    [None] (for [empty], [EmptyNoFuel]) is fuel running out.  As in
    [run], a call that pends ends the loop. *)
Module Testbench.

(** [fill]: push [i], [i + 1], ... ([__u64], cast to a pointer) until a
    push is refused. *)
Fixpoint fill_loop (fuel : nat) (i : Z) (pq : option ptr_queue)
    (errno : Z) : option (list event * option ptr_queue * Z) :=
  match fuel with
  | O => None
  | S fuel' =>
      match pq_push pq i errno with
      | Returns rv pq' e' =>
          if rv =? 0 then
            match fill_loop fuel' (wrap64 (i + 1)) pq' e' with
            | Some (evs, pq2, e2) => Some (EvPush i rv :: evs, pq2, e2)
            | None => None
            end
          else Some ([EvPush i rv], pq', e')
      | Blocks pq' e' => Some ([], pq', e')
      end
  end.

Definition fill (fuel : nat) (pq : option ptr_queue) (errno : Z) :=
  fill_loop fuel 1 pq errno.

(** [empty]: non-blocking pops until one returns NULL.  Each printed
    line carries the counter [i], an [int] that starts at 1 and is
    incremented in every round, the last one included.  Incrementing
    it at [INT_MAX] is undefined in C: the loop then has no defined
    result, [EmptyUndefined]. *)
Inductive empty_result : Type :=
| EmptyDone (evs : list (Z * event)) (pq : option ptr_queue) (errno : Z)
| EmptyNoFuel
| EmptyUndefined.

Fixpoint empty_loop (fuel : nat) (i : Z) (pq : option ptr_queue)
    (errno : Z) : empty_result :=
  match fuel with
  | O => EmptyNoFuel
  | S fuel' =>
      match pq_pop pq 0 errno with
      | Returns (ptr, via) pq' e' =>
          if INT_MAX <=? i then EmptyUndefined
          else if ptr =? NULL then EmptyDone [(i, EvPop ptr via)] pq' e'
          else
            match empty_loop fuel' (i + 1) pq' e' with
            | EmptyDone evs pq2 e2 =>
                EmptyDone ((i, EvPop ptr via) :: evs) pq2 e2
            | EmptyNoFuel => EmptyNoFuel
            | EmptyUndefined => EmptyUndefined
            end
      | Blocks pq' e' => EmptyDone [] pq' e'
      end
  end.

Definition empty (fuel : nat) (pq : option ptr_queue) (errno : Z) :=
  empty_loop fuel 1 pq errno.

(** [iterate]: push [i] and pop it again, for [i] from 1 below the
    number of iterations; the program exits at the first push that is
    refused and at the first pop that returns NULL. *)
Inductive iterate_result : Type :=
| IterDone (pq : option ptr_queue) (errno : Z)
| IterExit (i : Z) (pq : option ptr_queue) (errno : Z)
| IterPends (pq : option ptr_queue) (errno : Z).

Fixpoint iterate_loop (n : nat) (i : Z) (pq : option ptr_queue)
    (errno : Z) : iterate_result :=
  match n with
  | O => IterDone pq errno
  | S n' =>
      match pq_push pq i errno with
      | Returns rv pq1 e1 =>
          if rv =? 0 then
            match pq_pop pq1 0 e1 with
            | Returns (ptr, _) pq2 e2 =>
                if ptr =? NULL then IterExit i pq2 e2
                else iterate_loop n' (wrap64 (i + 1)) pq2 e2
            | Blocks pq2 e2 => IterPends pq2 e2
            end
          else IterExit i pq1 e1
      | Blocks pq1 e1 => IterPends pq1 e1
      end
  end.

Definition iterate (iterations : Z) (pq : option ptr_queue) (errno : Z) :=
  iterate_loop (Z.to_nat (iterations - 1)) 1 pq errno.

End Testbench.

(** ** Further specification-level definitions *)

(** [count_from n i] is [i; i + 1; ...; i + n - 1]. *)
Fixpoint count_from (n : nat) (i : Z) : list Z :=
  match n with
  | O => []
  | S n' => i :: count_from n' (i + 1)
  end.

(** Events numbered from [i], as [empty] prints them. *)
Fixpoint numbered (i : Z) (evs : list event) : list (Z * event) :=
  match evs with
  | [] => []
  | ev :: rest => (i, ev) :: numbered (i + 1) rest
  end.

(** Slot [i] holds a live entry. *)
Definition in_live (q : ptr_queue) (i : Z) : Prop :=
  if head q <=? tail q then head q <= i < tail q
  else head q <= i \/ i < tail q.

(** Every slot that holds no live entry holds NULL. *)
Definition dead_slots_null (q : ptr_queue) : Prop :=
  forall i, 0 <= i < array_capacity q -> ~ in_live q i ->
            data q !! Z.to_nat i = Some NULL.

(** Some push of the run was refused. *)
Fixpoint refused (evs : list event) : bool :=
  match evs with
  | [] => false
  | EvPush _ rv :: rest => negb (rv =? 0) || refused rest
  | EvPop _ _ :: rest => refused rest
  end.

(** Case analysis on every integer comparison in sight. *)
Ltac zcases :=
  repeat match goal with
         | |- context [Z.eqb ?a ?b] => destruct (Z.eqb_spec a b)
         | |- context [Z.gtb ?a ?b] => destruct (Z.gtb_spec a b)
         | |- context [Z.geb ?a ?b] => destruct (Z.geb_spec a b)
         | |- context [Z.ltb ?a ?b] => destruct (Z.ltb_spec a b)
         | |- context [Z.leb ?a ?b] => destruct (Z.leb_spec a b)
         | H : context [Z.eqb ?a ?b] |- _ => destruct (Z.eqb_spec a b)
         | H : context [Z.gtb ?a ?b] |- _ => destruct (Z.gtb_spec a b)
         | H : context [Z.geb ?a ?b] |- _ => destruct (Z.geb_spec a b)
         | H : context [Z.ltb ?a ?b] |- _ => destruct (Z.ltb_spec a b)
         | H : context [Z.leb ?a ?b] |- _ => destruct (Z.leb_spec a b)
         end.

(** ** Machine arithmetic *)

Lemma wrap32_small z : 0 <= z < 2 ^ 32 -> wrap32 z = z.
Proof. intros H. unfold wrap32. apply Z.mod_small. exact H. Qed.

Lemma wrap64_small z : 0 <= z < 2 ^ 64 -> wrap64 z = z.
Proof. intros H. unfold wrap64. apply Z.mod_small. exact H. Qed.

Lemma to_s32_small z : 0 <= z < 2 ^ 31 -> to_s32 z = z.
Proof.
  intros H. unfold to_s32.
  rewrite Z.mod_small; lia.
Qed.

Lemma to_s32_high z : 2 ^ 31 <= z < 2 ^ 32 -> to_s32 z = z - 2 ^ 32.
Proof.
  intros H. unfold to_s32.
  replace (z + 2 ^ 31) with ((z - 2 ^ 31) + 1 * 2 ^ 32) by lia.
  rewrite Z.mod_add by lia.
  rewrite Z.mod_small; lia.
Qed.

Lemma advance_wf cap i :
  0 < cap < 2 ^ 32 -> 0 <= i < cap ->
  advance cap i = (if i + 1 =? cap then 0 else i + 1).
Proof.
  intros Hc Hi. unfold advance.
  rewrite (wrap32_small (i + 1)) by lia.
  destruct (Z.geb_spec (i + 1) cap) as [Hge | Hlt].
  - assert (i + 1 = cap) as -> by lia.
    rewrite Z.sub_diag, Z.eqb_refl. reflexivity.
  - destruct (Z.eqb_spec (i + 1) cap); [lia | reflexivity].
Qed.

Lemma advance_mod cap i :
  0 < cap < 2 ^ 32 -> 0 <= i < cap ->
  advance cap i = (i + 1) mod cap.
Proof.
  intros Hc Hi. rewrite advance_wf by assumption.
  destruct (Z.eqb_spec (i + 1) cap) as [-> | Hne].
  - symmetry. apply Z.mod_same. lia.
  - symmetry. apply Z.mod_small. lia.
Qed.

Lemma advance_range cap i :
  0 < cap < 2 ^ 32 -> 0 <= i < cap -> 0 <= advance cap i < cap.
Proof.
  intros Hc Hi. rewrite advance_wf by assumption.
  destruct (Z.eqb_spec (i + 1) cap); lia.
Qed.

(** ** Injectivity of results *)

Lemma run_result_inj (evs evs' : list event) (q q' : ptr_queue) (e e' : Z) :
  (evs, Some q, e) = (evs', Some q', e') -> evs = evs' /\ q = q' /\ e = e'.
Proof. intros H. injection H as -> -> ->. auto. Qed.

Lemma Returns_inj {A} (rv rv' : A) pq pq' e e' :
  Returns rv pq e = Returns rv' pq' e' -> rv = rv'.
Proof. intros H. injection H as -> _ _. reflexivity. Qed.

(** ** The operations on a represented queue *)

Arguments pq_push : simpl never.
Arguments pq_pop : simpl never.
Arguments pq_len : simpl never.
Arguments pq_empty : simpl never.

Lemma pq_push_unfold q p e :
  mtx q = false ->
  pq_push (Some q) p e =
    if advance (array_capacity q) (tail q) =? head q
    then Returns 1 (Some q) ENOMEM
    else Returns 0
           (Some (mk_ptr_queue (mtx q) (sync_ready q) (waiting q)
                    (store (data q) (tail q) p) (buf q) (head q)
                    (advance (array_capacity q) (tail q))
                    (array_capacity q) (user_capacity q))) e.
Proof. intros Hm. unfold pq_push, advance. rewrite Hm. reflexivity. Qed.

Lemma pq_pop_unfold q w e :
  mtx q = false -> head q <> tail q ->
  pq_pop (Some q) w e =
    Returns (slot q (head q), PopTaken)
      (Some (mk_ptr_queue (mtx q) (sync_ready q) (waiting q)
               (store (data q) (head q) NULL) (buf q)
               (advance (array_capacity q) (head q)) (tail q)
               (array_capacity q) (user_capacity q))) e.
Proof.
  intros Hm Hne. unfold pq_pop, advance. rewrite Hm.
  destruct (Z.eqb_spec (head q) (tail q)); [contradiction | reflexivity].
Qed.

Lemma length_spec_range q :
  pq_wf q -> 0 <= length_spec q < array_capacity q.
Proof.
  intros (Hc & Hh & Ht & _). unfold length_spec.
  destruct (Z.eqb_spec (head q) (tail q)); [lia |].
  destruct (Z.gtb_spec (tail q) (head q)); lia.
Qed.

Lemma ring_idx_range q i :
  pq_wf q -> Z.of_nat i < array_capacity q ->
  0 <= ring_idx q i < array_capacity q.
Proof.
  intros (Hc & Hh & Ht & _) Hi. unfold ring_idx. cbv zeta.
  destruct (Z.ltb_spec (head q + Z.of_nat i) (array_capacity q)); lia.
Qed.

Lemma represents_nil_iff q l :
  represents q l -> (l = [] <-> head q = tail q).
Proof.
  intros ((Hc & Hh & Ht & _) & _ & _ & Hlen & _). unfold length_spec in Hlen.
  split.
  - intros ->. simpl in Hlen.
    destruct (Z.eqb_spec (head q) (tail q)); [assumption |].
    destruct (Z.gtb_spec (tail q) (head q)); lia.
  - intros Heq. rewrite Heq, Z.eqb_refl in Hlen.
    destruct l; [reflexivity | simpl in Hlen; lia].
Qed.

Lemma represents_full_iff q l :
  represents q l ->
  (Z.of_nat (length l) = array_capacity q - 1
   <-> advance (array_capacity q) (tail q) = head q).
Proof.
  intros ((Hc & Hh & Ht & _) & _ & _ & Hlen & _).
  rewrite advance_wf by assumption.
  rewrite Hlen. unfold length_spec.
  destruct (Z.eqb_spec (head q) (tail q));
    destruct (Z.gtb_spec (tail q) (head q));
    destruct (Z.eqb_spec (tail q + 1) (array_capacity q)); lia.
Qed.

Lemma represents_push q l p e :
  represents q l ->
  Z.of_nat (length l) < array_capacity q - 1 ->
  exists q',
    pq_push (Some q) p e = Returns 0 (Some q') e /\
    represents q' (l ++ [p]) /\
    array_capacity q' = array_capacity q /\
    buf q' = buf q.
Proof.
  intros Hrep Hroom.
  pose proof (represents_full_iff q l Hrep) as Hfull.
  destruct Hrep as (Hwf & Hm & Hu & Hlen & Hdata).
  pose proof Hwf as (Hc & Hh & Ht & Hd).
  rewrite pq_push_unfold by assumption.
  destruct (Z.eqb_spec (advance (array_capacity q) (tail q)) (head q))
    as [Heq | Hne]; [apply Hfull in Heq; lia |].
  eexists. split; [reflexivity |].
  split; [| split; reflexivity].
  pose proof (advance_range _ _ Hc Ht) as Hrange.
  rewrite advance_wf in * by assumption.
  unfold represents, pq_wf, length_spec, ring_idx, store in *; simpl.
  rewrite length_insert, length_app. simpl.
  split; [lia |]. split; [assumption |]. split; [assumption |].
  split; [zcases; lia |].
  intros i x Hix.
  destruct (decide (i < length l)%nat) as [Hlt | Hge].
  - rewrite lookup_app_l in Hix by assumption.
    rewrite list_lookup_insert_ne; [apply Hdata; assumption |].
    zcases; lia.
  - assert (i = length l) as ->.
    { apply lookup_lt_Some in Hix. rewrite length_app in Hix.
      simpl in Hix. lia. }
    rewrite list_lookup_middle in Hix by reflexivity.
    injection Hix as <-.
    replace (if head q + Z.of_nat (length l) <? array_capacity q
             then head q + Z.of_nat (length l)
             else head q + Z.of_nat (length l) - array_capacity q)
      with (tail q) by (zcases; lia).
    apply list_lookup_insert_eq. lia.
Qed.

Lemma represents_push_full q l p e :
  represents q l ->
  Z.of_nat (length l) = array_capacity q - 1 ->
  pq_push (Some q) p e = Returns 1 (Some q) ENOMEM.
Proof.
  intros Hrep Hfull.
  apply (represents_full_iff q l Hrep) in Hfull.
  destruct Hrep as (_ & Hm & _).
  rewrite pq_push_unfold by assumption.
  rewrite Hfull, Z.eqb_refl. reflexivity.
Qed.

Lemma represents_length_le q l :
  represents q l -> Z.of_nat (length l) <= array_capacity q - 1.
Proof.
  intros (Hwf & _ & _ & Hlen & _).
  pose proof (length_spec_range q Hwf). lia.
Qed.

Lemma represents_pop q x l w e :
  represents q (x :: l) ->
  exists q',
    pq_pop (Some q) w e = Returns (x, PopTaken) (Some q') e /\
    represents q' l /\
    array_capacity q' = array_capacity q /\
    buf q' = buf q.
Proof.
  intros Hrep.
  assert (head q <> tail q) as Hne.
  { intros Heq. apply (represents_nil_iff q _ Hrep) in Heq. discriminate. }
  destruct Hrep as (Hwf & Hm & Hu & Hlen & Hdata).
  pose proof Hwf as (Hc & Hh & Ht & Hd).
  rewrite pq_pop_unfold by assumption.
  assert (slot q (head q) = x) as ->.
  { unfold slot. specialize (Hdata 0%nat x eq_refl).
    unfold ring_idx in Hdata. cbv zeta in Hdata.
    replace (head q + Z.of_nat 0) with (head q) in Hdata by lia.
    destruct (Z.ltb_spec (head q) (array_capacity q)); [| lia].
    rewrite Hdata. reflexivity. }
  eexists. split; [reflexivity |].
  split; [| split; reflexivity].
  pose proof (advance_range _ _ Hc Hh) as Hrange.
  rewrite advance_wf in * by assumption.
  unfold represents, pq_wf, length_spec, ring_idx, store in *; simpl.
  simpl in Hlen.
  rewrite length_insert.
  split; [lia |]. split; [assumption |]. split; [assumption |].
  split; [zcases; lia |].
  intros i y Hiy.
  assert (Z.of_nat (S i) < Z.of_nat (S (length l))) as Hi.
  { apply lookup_lt_Some in Hiy. lia. }
  specialize (Hdata (S i) y Hiy).
  rewrite list_lookup_insert_ne by (zcases; lia).
  rewrite <- Hdata. f_equal. f_equal. zcases; lia.
Qed.

Lemma represents_pop_empty q e :
  represents q [] ->
  pq_pop (Some q) 0 e = Returns (NULL, PopEmpty) (Some q) e.
Proof.
  intros Hrep.
  assert (head q = tail q) as Heq
    by (apply (represents_nil_iff q [] Hrep); reflexivity).
  destruct Hrep as (_ & Hm & _).
  unfold pq_pop. rewrite Hm, Heq, Z.eqb_refl. reflexivity.
Qed.

(** On a well-formed queue [pq_len] is the specification's formula,
    converted to [__s32]. *)
Lemma pq_len_wf q e :
  pq_wf q -> mtx q = false ->
  pq_len (Some q) e = Returns (to_s32 (length_spec q)) (Some q) e.
Proof.
  intros (Hc & Hh & Ht & _) Hm. unfold pq_len, length_spec. rewrite Hm.
  destruct (Z.eqb_spec (head q) (tail q)); [reflexivity |].
  destruct (Z.gtb_spec (tail q) (head q)).
  - rewrite wrap32_small by lia. reflexivity.
  - destruct (Z.gtb_spec (head q) (tail q)); [| lia].
    rewrite (wrap32_small (array_capacity q - head q)) by lia.
    rewrite wrap32_small by lia. reflexivity.
Qed.

Lemma pq_len_represents q l e :
  represents q l -> array_capacity q <= 2 ^ 31 ->
  pq_len (Some q) e = Returns (Z.of_nat (length l)) (Some q) e.
Proof.
  intros (Hwf & Hm & _ & Hlen & _) Hcap.
  rewrite pq_len_wf by assumption.
  pose proof (length_spec_range q Hwf).
  rewrite to_s32_small by lia. rewrite Hlen. reflexivity.
Qed.

(** No operation on a well-formed queue indexes outside the array. *)
Lemma index_in_bounds q :
  pq_wf q ->
  (Z.to_nat (head q) < length (data q))%nat /\
  (Z.to_nat (tail q) < length (data q))%nat.
Proof. intros (Hc & Hh & Ht & Hd). lia. Qed.

Lemma represents_set_waiting q l w :
  represents q l -> represents (set_waiting q w) l.
Proof. intros H. exact H. Qed.

(** ** Runs on a represented queue *)

(** The abstract queue is simulated step by step: what was queued and
    what was pushed is what was popped and what is still queued. *)
Lemma run_fifo ops : forall q l e,
  represents q l ->
  exists evs q' e' l',
    run ops (Some q) e = (evs, Some q', e') /\
    represents q' l' /\
    array_capacity q' = array_capacity q /\
    l ++ pushed evs = popped evs ++ l'.
Proof.
  induction ops as [| o ops IH]; intros q l e Hrep.
  - exists [], q, e, l. simpl. rewrite app_nil_r. auto.
  - destruct o as [p | w]; simpl.
    + pose proof (represents_length_le q l Hrep) as Hle.
      destruct (Z.eq_dec (Z.of_nat (length l)) (array_capacity q - 1))
        as [Hfull | Hroom].
      * rewrite (represents_push_full q l p e Hrep Hfull).
        destruct (IH q l ENOMEM Hrep) as (evs & q' & e' & l' & Hr & H1 & H2 & H3).
        rewrite Hr. exists (EvPush p 1 :: evs), q', e', l'. simpl. auto.
      * destruct (represents_push q l p e Hrep ltac:(lia))
          as (q1 & Hpush & Hrep1 & Hcap1 & _).
        rewrite Hpush.
        destruct (IH q1 (l ++ [p]) e Hrep1)
          as (evs & q' & e' & l' & Hr & H1 & H2 & H3).
        rewrite Hr. exists (EvPush p 0 :: evs), q', e', l'. simpl.
        split; [reflexivity |]. split; [assumption |].
        split; [congruence |].
        rewrite <- H3, <- app_assoc. reflexivity.
    + destruct l as [| x l].
      * destruct (Z.eq_dec w 0) as [-> | Hw].
        -- rewrite (represents_pop_empty q e Hrep).
           destruct (IH q [] e Hrep) as (evs & q' & e' & l' & Hr & H1 & H2 & H3).
           rewrite Hr. exists (EvPop NULL PopEmpty :: evs), q', e', l'.
           simpl. auto.
        -- assert (head q = tail q) as Heq
             by (apply (represents_nil_iff q [] Hrep); reflexivity).
           pose proof Hrep as (_ & Hm & _).
           unfold pq_pop. rewrite Hm, Heq, Z.eqb_refl.
           destruct (Z.eqb_spec w 0); [contradiction |].
           exists [], (set_waiting q 1), e, []. simpl.
           split; [reflexivity |].
           split; [apply represents_set_waiting; assumption |].
           split; reflexivity.
      * destruct (represents_pop q x l w e Hrep)
          as (q1 & Hpop & Hrep1 & Hcap1 & _).
        rewrite Hpop.
        destruct (IH q1 l e Hrep1) as (evs & q' & e' & l' & Hr & H1 & H2 & H3).
        rewrite Hr. exists (EvPop x PopTaken :: evs), q', e', l'. simpl.
        split; [reflexivity |]. split; [assumption |].
        split; [congruence |].
        rewrite <- H3. reflexivity.
Qed.

Lemma pushed_ev_pushed ps : pushed (map ev_pushed ps) = ps.
Proof. induction ps as [| p ps IH]; simpl; [| rewrite IH]; reflexivity. Qed.

Lemma popped_ev_pushed ps : popped (map ev_pushed ps) = [].
Proof. induction ps as [| p ps IH]; simpl; [reflexivity | exact IH]. Qed.

Lemma popped_ev_taken l : popped (map ev_taken l) = l.
Proof. induction l as [| x l IH]; simpl; [| rewrite IH]; reflexivity. Qed.

(** Pushes into free room all succeed and queue up behind [l]. *)
Lemma run_pushes ps : forall q l rest e,
  represents q l ->
  Z.of_nat (length l) + Z.of_nat (length ps) <= array_capacity q - 1 ->
  exists q',
    represents q' (l ++ ps) /\
    array_capacity q' = array_capacity q /\
    buf q' = buf q /\
    (reachable q -> reachable q') /\
    run (map OpPush ps ++ rest) (Some q) e
      = prepend (map ev_pushed ps) (run rest (Some q') e).
Proof.
  induction ps as [| p ps IH]; intros q l rest e Hrep Hroom.
  - exists q. rewrite app_nil_r. simpl.
    split; [assumption |]. split; [reflexivity |]. split; [reflexivity |].
    split; [auto |].
    destruct (run rest (Some q) e) as [[evs pq] e']. reflexivity.
  - simpl in Hroom.
    destruct (represents_push q l p e Hrep ltac:(lia))
      as (q1 & Hpush & Hrep1 & Hcap1 & Hbuf1).
    destruct (IH q1 (l ++ [p]) rest e Hrep1) as (q' & H1 & H2 & H3 & H4 & H5).
    { rewrite length_app, Hcap1. simpl. lia. }
    exists q'. rewrite <- app_assoc in H1.
    split; [assumption |]. split; [congruence |]. split; [congruence |].
    split.
    + intros Hr. apply H4. eapply reach_push; eassumption.
    + simpl. rewrite Hpush, H5.
      destruct (run rest (Some q') e) as [[evs pq] e']. reflexivity.
Qed.

(** Pops, blocking or not, of entries that are there return them in
    order. *)
Lemma run_pops l1 : forall q l2 ws rest e,
  represents q (l1 ++ l2) ->
  length ws = length l1 ->
  exists q',
    represents q' l2 /\
    array_capacity q' = array_capacity q /\
    buf q' = buf q /\
    (reachable q -> reachable q') /\
    run (map OpPop ws ++ rest) (Some q) e
      = prepend (map ev_taken l1) (run rest (Some q') e).
Proof.
  induction l1 as [| x l1 IH]; intros q l2 ws rest e Hrep Hlen.
  - destruct ws; [| discriminate]. exists q. simpl.
    split; [assumption |]. split; [reflexivity |]. split; [reflexivity |].
    split; [auto |].
    destruct (run rest (Some q) e) as [[evs pq] e']. reflexivity.
  - destruct ws as [| w ws]; [discriminate |].
    injection Hlen as Hlen.
    destruct (represents_pop q x (l1 ++ l2) w e Hrep)
      as (q1 & Hpop & Hrep1 & Hcap1 & Hbuf1).
    destruct (IH q1 l2 ws rest e Hrep1 Hlen) as (q' & H1 & H2 & H3 & H4 & H5).
    exists q'.
    split; [assumption |]. split; [congruence |]. split; [congruence |].
    split.
    + intros Hr. apply H4. eapply reach_pop; eassumption.
    + simpl. rewrite Hpop, H5.
      destruct (run rest (Some q') e) as [[evs pq] e']. reflexivity.
Qed.

(** ** The initializer *)

Lemma capacity_fields count :
  0 <= count < 2 ^ 64 ->
  wrap32 (wrap64 (count + 1)) <> 0 ->
  0 < wrap32 (wrap64 (count + 1)) < 2 ^ 32 /\
  wrap32 count = wrap32 (wrap64 (count + 1)) - 1.
Proof.
  unfold wrap32, wrap64. intros Hc Hne.
  rewrite Z.mod_mod_divide in * by (exists (2 ^ 32); reflexivity).
  change (2 ^ 32) with 4294967296 in *.
  pose proof (Z.div_mod count 4294967296 ltac:(lia)).
  pose proof (Z.div_mod (count + 1) 4294967296 ltac:(lia)).
  pose proof (Z.mod_pos_bound count 4294967296 ltac:(lia)).
  pose proof (Z.mod_pos_bound (count + 1) 4294967296 ltac:(lia)).
  nia.
Qed.

Lemma capacity_fields_small count :
  0 <= count < 2 ^ 32 - 1 ->
  wrap32 (wrap64 (count + 1)) = count + 1 /\ wrap32 count = count.
Proof.
  intros Hc. rewrite wrap64_small by lia.
  split; apply wrap32_small; lia.
Qed.

Lemma blank_queue_represents count :
  0 <= count < 2 ^ 64 ->
  wrap32 (wrap64 (count + 1)) <> 0 ->
  represents (blank_queue count) [].
Proof.
  intros Hc Hne.
  destruct (capacity_fields count Hc Hne) as [Hcap Hu].
  unfold represents, pq_wf, length_spec. simpl.
  rewrite length_replicate.
  split; [lia |]. split; [reflexivity |]. split; [assumption |].
  split; [reflexivity |].
  intros i x Hix. discriminate.
Qed.

Lemma init_fill_represents obj_size b n : forall i q l e,
  represents q l ->
  exists q' l' e',
    init_fill n i obj_size b (Some q) e = Returns tt (Some q') e' /\
    represents q' l' /\
    array_capacity q' = array_capacity q.
Proof.
  induction n as [| n IH]; intros i q l e Hrep.
  - exists q, l, e. simpl. auto.
  - simpl.
    pose proof (represents_length_le q l Hrep) as Hle.
    destruct (Z.eq_dec (Z.of_nat (length l)) (array_capacity q - 1))
      as [Hfull | Hroom].
    + rewrite (represents_push_full q l _ e Hrep Hfull).
      apply (IH (i + 1) q l ENOMEM Hrep).
    + destruct (represents_push q l (b + wrap64 (i * obj_size)) e Hrep
                  ltac:(lia)) as (q1 & Hpush & Hrep1 & Hcap1 & _).
      rewrite Hpush.
      destruct (IH (i + 1) q1 _ e Hrep1) as (q' & l' & e' & H1 & H2 & H3).
      exists q', l', e'.
      split; [assumption |]. split; [assumption | congruence].
Qed.

(** While there is room every object of the pool is enqueued. *)
Lemma init_fill_exact obj_size b n : forall i q l e,
  represents q l ->
  Z.of_nat (length l) + Z.of_nat n <= array_capacity q - 1 ->
  exists q',
    init_fill n i obj_size b (Some q) e = Returns tt (Some q') e /\
    represents q' (l ++ pool_refs n i obj_size b) /\
    array_capacity q' = array_capacity q /\
    buf q' = buf q.
Proof.
  induction n as [| n IH]; intros i q l e Hrep Hroom.
  - exists q. simpl. rewrite app_nil_r. auto.
  - simpl.
    destruct (represents_push q l (b + wrap64 (i * obj_size)) e Hrep
                ltac:(lia)) as (q1 & Hpush & Hrep1 & Hcap1 & Hbuf1).
    rewrite Hpush.
    destruct (IH (i + 1) q1 _ e Hrep1) as (q' & H1 & H2 & H3 & H4).
    { rewrite length_app, Hcap1. simpl. lia. }
    exists q'. rewrite <- app_assoc in H2.
    split; [assumption |]. split; [assumption |].
    split; congruence.
Qed.

(** On a full queue every push of the loop is refused. *)
Lemma init_fill_full obj_size b n : forall i q l e,
  represents q l ->
  Z.of_nat (length l) = array_capacity q - 1 ->
  init_fill n i obj_size b (Some q) e
    = Returns tt (Some q) (match n with O => e | S _ => ENOMEM end).
Proof.
  induction n as [| n IH]; intros i q l e Hrep Hfull.
  - reflexivity.
  - simpl. rewrite (represents_push_full q l _ e Hrep Hfull).
    rewrite (IH (i + 1) q l ENOMEM Hrep Hfull).
    destruct n; reflexivity.
Qed.

(** The three ways [pq_init] hands a queue to its caller. *)
Lemma pq_init_inv count obj_size h e h' e' q :
  pq_init count obj_size h e = Returns h' (Some q) e' ->
  count <> 0 /\
  ((obj_size >? 0) = false /\ q = fresh_queue count /\ e' = e
   \/ (obj_size >? 0) = true /\ q = blank_queue count /\ e' = ENOMEM
   \/ (obj_size >? 0) = true /\ count * obj_size < 2 ^ 64 /\
      exists b qf,
        b <> NULL /\
        init_fill (Z.to_nat count) 0 obj_size b
          (Some (set_buf (blank_queue count) b)) e
          = Returns tt (Some qf) e' /\
        q = set_sync_ready qf).
Proof.
  unfold pq_init.
  destruct (Z.eqb_spec count 0) as [| Hcount]; [discriminate |].
  destruct (calloc 1 sizeof_ptr_queue h) as [p h1].
  destruct (Z.eqb_spec p NULL); [discriminate |].
  destruct (calloc (wrap32 (wrap64 (count + 1))) sizeof_ptr h1) as [d h2].
  destruct (Z.eqb_spec d NULL); [discriminate |].
  destruct (obj_size >? 0) eqn:Hobj.
  - destruct (calloc count obj_size h2) as [b h3] eqn:Hcalloc.
    destruct (Z.eqb_spec b NULL) as [| Hb].
    + intros H. injection H as _ <- <-.
      split; [assumption |]. right. left. auto.
    + destruct (init_fill _ _ _ _ _ _) as [[] [qf |] ef | ] eqn:Hfill;
        try discriminate.
      intros H. injection H as _ <- <-.
      split; [assumption |]. right. right.
      split; [reflexivity |]. split.
      * unfold calloc in Hcalloc.
        destruct (supply h2); [injection Hcalloc as <-; contradiction |].
        destruct (Z.eqb_spec z NULL); simpl in Hcalloc.
        -- injection Hcalloc as <-. contradiction.
        -- destruct (Z.leb_spec (2 ^ 64) (count * obj_size));
             [injection Hcalloc as <-; contradiction | assumption].
      * exists b, qf. auto.
  - intros H. injection H as _ <- <-.
    split; [assumption |]. left. auto.
Qed.

(** ** What calls keep *)

Lemma pq_push_capacity q p e rv q' e' :
  pq_push (Some q) p e = Returns rv (Some q') e' ->
  array_capacity q' = array_capacity q.
Proof.
  unfold pq_push. destruct (mtx q); [discriminate |].
  match goal with |- context [if ?c then _ else _] => destruct c end;
    intros H; injection H as _ <- _; reflexivity.
Qed.

Lemma pq_pop_capacity q w e r q' e' :
  pq_pop (Some q) w e = Returns r (Some q') e' ->
  array_capacity q' = array_capacity q.
Proof.
  unfold pq_pop.
  destruct (mtx q), (head q =? tail q), (w =? 0);
    try discriminate; intros H; injection H as _ <- _; reflexivity.
Qed.

Lemma pq_len_state q e rv q' e' :
  pq_len (Some q) e = Returns rv (Some q') e' -> q' = q.
Proof.
  unfold pq_len. destruct (mtx q); [discriminate |].
  intros H. injection H as _ <- _. reflexivity.
Qed.

Lemma pq_empty_state q e rv q' e' :
  pq_empty (Some q) e = Returns rv (Some q') e' -> q' = q.
Proof.
  unfold pq_empty. destruct (mtx q); [discriminate |].
  intros H. injection H as _ <- _. reflexivity.
Qed.

Lemma init_fill_capacity obj_size b n : forall i q e u q' e',
  init_fill n i obj_size b (Some q) e = Returns u (Some q') e' ->
  array_capacity q' = array_capacity q.
Proof.
  induction n as [| n IH]; intros i q e u q' e'; simpl.
  - intros H. injection H as _ <- _. reflexivity.
  - destruct (pq_push (Some q) _ e) as [rv [q1 |] e1 |] eqn:Hpush;
      try discriminate.
    + intros H. apply IH in H. rewrite H.
      eapply pq_push_capacity. eassumption.
    + unfold pq_push in Hpush. destruct (mtx q); [discriminate |].
      match type of Hpush with
      | context [if ?c then _ else _] => destruct c
      end; discriminate.
Qed.

Lemma pq_init_capacity count obj_size h e h' e' q :
  pq_init count obj_size h e = Returns h' (Some q) e' ->
  array_capacity q = wrap32 (wrap64 (count + 1)).
Proof.
  intros H. apply pq_init_inv in H.
  destruct H as (_ & [(_ & -> & _) | [(_ & -> & _) | (_ & _ & b & qf & _ & Hfill & ->)]]);
    try reflexivity.
  apply init_fill_capacity in Hfill. exact Hfill.
Qed.

Lemma pq_init_represents count obj_size h e h' e' q :
  0 <= count < 2 ^ 64 ->
  pq_init count obj_size h e = Returns h' (Some q) e' ->
  array_capacity q <> 0 ->
  exists l, represents q l /\ (obj_size = 0 -> l = []).
Proof.
  intros Hc H Hcap.
  rewrite (pq_init_capacity _ _ _ _ _ _ _ H) in Hcap.
  pose proof (blank_queue_represents count Hc Hcap) as Hblank.
  apply pq_init_inv in H.
  destruct H as (_ & [(_ & -> & _) | [(Hobj & -> & _) | (Hobj & _ & b & qf & _ & Hfill & ->)]]).
  - exists []. split; [exact Hblank | reflexivity].
  - exists []. split; [exact Hblank | reflexivity].
  - destruct (init_fill_represents obj_size b (Z.to_nat count) 0
                (set_buf (blank_queue count) b) [] e Hblank)
      as (q' & l' & e1 & H1 & H2 & _).
    rewrite H1 in Hfill. injection Hfill as <- _.
    exists l'. split; [exact H2 |].
    intros ->. discriminate.
Qed.

(** Every call that returns keeps the queue represented. *)
Lemma represents_step_push q l p e rv q' e' :
  represents q l ->
  pq_push (Some q) p e = Returns rv (Some q') e' ->
  exists l', represents q' l'.
Proof.
  intros Hrep Hpush.
  pose proof (represents_length_le q l Hrep) as Hle.
  destruct (Z.eq_dec (Z.of_nat (length l)) (array_capacity q - 1))
    as [Hfull | Hroom].
  - rewrite (represents_push_full q l p e Hrep Hfull) in Hpush.
    injection Hpush as _ <- _. exists l. assumption.
  - destruct (represents_push q l p e Hrep ltac:(lia))
      as (q1 & Hp & Hrep1 & _).
    rewrite Hp in Hpush. injection Hpush as _ <- _.
    exists (l ++ [p]). assumption.
Qed.

Lemma represents_step_pop q l w e r q' e' :
  represents q l ->
  pq_pop (Some q) w e = Returns r (Some q') e' ->
  exists l', represents q' l'.
Proof.
  intros Hrep Hpop. destruct l as [| x l].
  - assert (head q = tail q) as Heq
      by (apply (represents_nil_iff q [] Hrep); reflexivity).
    pose proof Hrep as (_ & Hm & _).
    unfold pq_pop in Hpop. rewrite Hm, Heq, Z.eqb_refl in Hpop.
    destruct (w =? 0); [| discriminate].
    injection Hpop as _ <- _. exists []. assumption.
  - destruct (represents_pop q x l w e Hrep) as (q1 & Hp & Hrep1 & _).
    rewrite Hp in Hpop. injection Hpop as _ <- _.
    exists l. assumption.
Qed.

Lemma reachable_represents q :
  reachable q -> array_capacity q <> 0 -> exists l, represents q l.
Proof.
  induction 1 as [count obj_size h e h' e' q Hc Ho Hinit
                 | q p e rv q' e' Hr IH Hpush
                 | q w e r q' e' Hr IH Hpop
                 | q e rv q' e' Hr IH Hlen
                 | q e rv q' e' Hr IH Hemp]; intros Hcap.
  - destruct (pq_init_represents _ _ _ _ _ _ _ Hc Hinit Hcap) as (l & Hl & _).
    exists l. assumption.
  - rewrite (pq_push_capacity _ _ _ _ _ _ Hpush) in Hcap.
    destruct (IH Hcap) as (l & Hl).
    eapply represents_step_push; eassumption.
  - rewrite (pq_pop_capacity _ _ _ _ _ _ Hpop) in Hcap.
    destruct (IH Hcap) as (l & Hl).
    eapply represents_step_pop; eassumption.
  - apply pq_len_state in Hlen. subst q'. auto.
  - apply pq_empty_state in Hemp. subst q'. auto.
Qed.

(** ** Queue mode: [pq_init count 0] *)

Lemma fresh_queue_represents count :
  0 <= count < 2 ^ 64 ->
  wrap32 (wrap64 (count + 1)) <> 0 ->
  represents (fresh_queue count) [].
Proof. intros Hc Hne. exact (blank_queue_represents count Hc Hne). Qed.

Lemma length_spec_fresh count : length_spec (fresh_queue count) = 0.
Proof. reflexivity. Qed.

Lemma pq_init_fresh count h e h' e' q :
  pq_init count 0 h e = Returns h' (Some q) e' ->
  q = fresh_queue count /\ e' = e.
Proof.
  intros H. apply pq_init_inv in H.
  destruct H as (_ & [(_ & -> & ->) | [(Hobj & _) | (Hobj & _)]]);
    [auto | discriminate | discriminate].
Qed.

(** With two allocations that succeed the initializer returns the
    fresh queue and leaves both blocks live. *)
Lemma pq_init_queue_eq count p d rest lv e :
  count <> 0 -> p <> NULL -> d <> NULL ->
  pq_init count 0 (mk_heap (p :: d :: rest) lv) e
    = Returns (mk_heap rest (d :: p :: lv)) (Some (fresh_queue count)) e.
Proof.
  intros Hc Hp Hd. unfold pq_init, calloc. simpl supply.
  destruct (Z.eqb_spec count 0); [contradiction |].
  destruct (Z.eqb_spec p NULL); [contradiction |].
  replace (2 ^ 64 <=? 1 * sizeof_ptr_queue) with false by reflexivity.
  cbn [orb]. simpl supply.
  destruct (Z.eqb_spec p NULL); [contradiction |].
  destruct (Z.eqb_spec d NULL); [contradiction |].
  assert (0 <= wrap32 (wrap64 (count + 1)) < 2 ^ 32) as Hcap
    by (apply Z.mod_pos_bound; reflexivity).
  destruct (Z.leb_spec (2 ^ 64) (wrap32 (wrap64 (count + 1)) * sizeof_ptr))
    as [Hbig |].
  { unfold sizeof_ptr in Hbig. lia. }
  cbn [orb].
  destruct (Z.eqb_spec d NULL); [contradiction |].
  reflexivity.
Qed.

Lemma run_pushes_only q l ps e :
  represents q l ->
  Z.of_nat (length l) + Z.of_nat (length ps) <= array_capacity q - 1 ->
  exists q',
    represents q' (l ++ ps) /\
    array_capacity q' = array_capacity q /\
    (reachable q -> reachable q') /\
    run (map OpPush ps) (Some q) e = (map ev_pushed ps, Some q', e).
Proof.
  intros Hrep Hroom.
  destruct (run_pushes ps q l [] e Hrep Hroom)
    as (q' & H1 & H2 & _ & H4 & H5).
  exists q'. rewrite !app_nil_r in H5. simpl in H5.
  rewrite app_nil_r in H5. auto.
Qed.

(** C1, amended: for [pq_init count 0] with [0 < count < 2^32 - 1]
    (so that [count + 1] fits the 32-bit [array_capacity]) the
    initializer returns a queue when its two allocations succeed, on
    that queue exactly [count] consecutive pushes succeed, and the push
    after them fails with [ENOMEM], the queue-full error. *)
Theorem init_capacity_exact (count : Z) :
  0 < count < 2 ^ 32 - 1 ->
  (forall p d rest lv e,
      p <> NULL -> d <> NULL ->
      pq_init count 0 (mk_heap (p :: d :: rest) lv) e
        = Returns (mk_heap rest (d :: p :: lv)) (Some (fresh_queue count)) e) /\
  capacity_exact count.
Proof.
  intros Hcount. split.
  - intros p d rest lv e Hp Hd. apply pq_init_queue_eq; [lia | assumption ..].
  - intros h e h' e' q Hinit ps p e0 Hlen.
    apply pq_init_fresh in Hinit. destruct Hinit as [-> _].
    destruct (capacity_fields_small count ltac:(lia)) as [Hcap Hu].
    assert (represents (fresh_queue count) []) as Hrep.
    { apply fresh_queue_represents; lia. }
    assert (array_capacity (fresh_queue count) = count + 1) as Hcapq
      by exact Hcap.
    destruct (run_pushes_only (fresh_queue count) [] ps e0 Hrep)
      as (q1 & Hrep1 & Hcap1 & _ & Hrun).
    { simpl length. lia. }
    simpl in Hrep1. exists q1. split; [exact Hrun |].
    destruct (Z.ltb_spec (Z.of_nat (length ps)) count) as [Hlt | Hge].
    + destruct (represents_push q1 ps p e0 Hrep1 ltac:(lia))
        as (q2 & Hpush & _).
      exists q2. exact Hpush.
    + apply (represents_push_full q1 ps p e0 Hrep1). lia.
Qed.

(** The amended C1 at capacity 3. *)
Lemma init_capacity_exact_witness :
  0 < 3 < 2 ^ 32 - 1 /\ capacity_exact 3.
Proof.
  split; [lia |]. apply (init_capacity_exact 3). lia.
Defined.

(** C1 as stated fails: with [count = 2^32] the 32-bit
    [array_capacity] is 1 and [user_capacity] is 0, and the very first
    push is refused. *)
Lemma capacity_exact_fails_at_2_32 : ~ capacity_exact (2 ^ 32).
Proof.
  intros Hclaim.
  destruct (Hclaim (heap_of [4096; 8192]) 0
              (mk_heap [] [8192; 4096]) 0 (fresh_queue (2 ^ 32))
              eq_refl [] 1 0 ltac:(simpl; lia))
    as (q1 & Hrun & Hpush).
  simpl in Hrun. injection Hrun as <-.
  change (Z.of_nat (length (@nil Z)) <? 2 ^ 32) with true in Hpush.
  destruct Hpush as (q2 & Hpush). discriminate.
Qed.

(** C2: the queue is first in, first out.  On a queue made by
    [pq_init] (with a non-zero [array_capacity]) and for every sequence
    of pushes and pops by one thread, the references popped, in order,
    followed by those still queued, are the references the initializer
    enqueued (none in queue mode) followed by those pushed, in order.
    With capacity 10, after pushing 1..10, ten pops (blocking or not)
    return 1, 2, ..., 10 and an eleventh non-blocking pop finds the
    queue empty. *)
Theorem fifo_order :
  (forall count obj_size h e h' e' q,
      0 <= count < 2 ^ 64 ->
      pq_init count obj_size h e = Returns h' (Some q) e' ->
      array_capacity q <> 0 ->
      exists seeded,
        represents q seeded /\
        (obj_size = 0 -> seeded = []) /\
        forall ops e0,
          exists evs q1 e1 rest,
            run ops (Some q) e0 = (evs, Some q1, e1) /\
            represents q1 rest /\
            seeded ++ pushed evs = popped evs ++ rest) /\
  (forall h e h' e' q,
      pq_init 10 0 h e = Returns h' (Some q) e' ->
      forall ws e0,
        length ws = 10%nat ->
        exists q1,
          run (map OpPush one_to_ten ++ map OpPop ws ++ [OpPop 0])
              (Some q) e0
            = (map ev_pushed one_to_ten ++ map ev_taken one_to_ten
                 ++ [EvPop NULL PopEmpty], Some q1, e0)).
Proof.
  split.
  - intros count obj_size h e h' e' q Hc Hinit Hcap.
    destruct (pq_init_represents _ _ _ _ _ _ _ Hc Hinit Hcap)
      as (seeded & Hrep & Hnil).
    exists seeded. split; [exact Hrep |]. split; [exact Hnil |].
    intros ops e0.
    destruct (run_fifo ops q seeded e0 Hrep)
      as (evs & q1 & e1 & rest & Hrun & Hrep1 & _ & Heq).
    exists evs, q1, e1, rest. auto.
  - intros h e h' e' q Hinit ws e0 Hws.
    apply pq_init_fresh in Hinit. destruct Hinit as [-> _].
    assert (represents (fresh_queue 10) []) as Hrep.
    { apply fresh_queue_represents; [lia | discriminate]. }
    destruct (run_pushes one_to_ten (fresh_queue 10) []
                (map OpPop ws ++ [OpPop 0]) e0 Hrep)
      as (q1 & Hrep1 & _ & _ & _ & Hrun1).
    { vm_compute. discriminate. }
    rewrite Hrun1.
    change ([] ++ one_to_ten) with one_to_ten in Hrep1.
    rewrite <- (app_nil_r one_to_ten) in Hrep1.
    destruct (run_pops one_to_ten q1 [] ws [OpPop 0] e0 Hrep1 Hws)
      as (q2 & Hrep2 & _ & _ & _ & Hrun2).
    rewrite Hrun2.
    exists q2. cbn [run].
    rewrite (represents_pop_empty q2 e0 Hrep2).
    reflexivity.
Qed.

(** The general part of C2 at capacity 10. *)
Lemma fifo_order_witness :
  exists seeded,
    represents (fresh_queue 10) seeded /\
    (0 = 0 -> seeded = []) /\
    forall ops e0,
      exists evs q1 e1 rest,
        run ops (Some (fresh_queue 10)) e0 = (evs, Some q1, e1) /\
        represents q1 rest /\
        seeded ++ pushed evs = popped evs ++ rest.
Proof.
  apply (proj1 fifo_order 10 0 (heap_of [4096; 8192]) 0
           (mk_heap [] [8192; 4096]) 0 (fresh_queue 10)).
  - lia.
  - reflexivity.
  - vm_compute. discriminate.
Defined.

(** ** Length *)

(** C3, amended: on a queue made by [pq_init count obj_size] whose
    32-bit [array_capacity], [(count + 1) mod 2^32], is non-zero and at
    most 2^31 (every [count] with [0 < count < 2^31] is such), after
    every sequence of pushes and pops [pq_len] returns the number of
    entries the initializer enqueued (none when [obj_size] is 0) plus
    the successful pushes minus the successful pops, and never more
    than [user_capacity]. *)
Theorem length_conservation (count obj_size : Z) :
  0 <= count < 2 ^ 64 ->
  0 < wrap32 (wrap64 (count + 1)) <= 2 ^ 31 ->
  conservation count obj_size.
Proof.
  intros Hcount Hcapr h e h' e' q Hinit.
  pose proof (pq_init_capacity _ _ _ _ _ _ _ Hinit) as Hcap.
  destruct (pq_init_represents count obj_size h e h' e' q
              Hcount Hinit ltac:(lia)) as (seeded & Hrep & Hnil).
  pose proof Hrep as (_ & _ & _ & Hseed & _).
  split.
  - intros Hobj. rewrite <- Hseed, (Hnil Hobj). reflexivity.
  - intros ops e0.
    destruct (run_fifo ops q seeded e0 Hrep)
      as (evs & q1 & e1 & rest & Hrun & Hrep1 & Hcap1 & Heq).
    exists evs, q1, e1. split; [exact Hrun |].
    apply (f_equal (@length Z)) in Heq. rewrite !length_app in Heq.
    assert (length_spec q + Z.of_nat (length (pushed evs))
            - Z.of_nat (length (popped evs)) = Z.of_nat (length rest))
      as -> by lia.
    split.
    + apply pq_len_represents; [assumption | lia].
    + pose proof (represents_length_le q1 rest Hrep1).
      destruct Hrep1 as (_ & _ & Hu & _). lia.
Qed.

(** The amended C3 at capacity 4, queue mode. *)
Lemma length_conservation_witness :
  0 <= 4 < 2 ^ 64 /\ 0 < wrap32 (wrap64 (4 + 1)) <= 2 ^ 31 /\
  conservation 4 0.
Proof.
  split; [lia |]. split; [vm_compute; split; [reflexivity | discriminate] |].
  apply (length_conservation 4 0).
  - lia.
  - vm_compute. split; [reflexivity | discriminate].
Defined.

(** Filling a fresh queue: [count] pushes of the reference 1. *)
Lemma fill_fresh count e :
  0 < count < 2 ^ 32 - 1 ->
  exists q',
    reachable q' /\
    pq_wf q' /\ mtx q' = false /\
    length_spec q' = count /\
    run (map OpPush (replicate (Z.to_nat count) 1))
        (Some (fresh_queue count)) e
      = (map ev_pushed (replicate (Z.to_nat count) 1), Some q', e).
Proof.
  intros Hcount.
  destruct (capacity_fields_small count ltac:(lia)) as [Hcap Hu].
  assert (represents (fresh_queue count) []) as Hrep.
  { apply fresh_queue_represents; lia. }
  assert (array_capacity (fresh_queue count) = count + 1) as Hcapq
    by exact Hcap.
  destruct (run_pushes_only (fresh_queue count) []
              (replicate (Z.to_nat count) 1) e Hrep)
    as (q' & Hrep' & _ & Hreach & Hrun).
  { rewrite length_replicate. simpl length. lia. }
  exists q'. destruct Hrep' as (Hwf & Hm & _ & Hlen & _).
  split.
  { apply Hreach.
    apply (reach_init count 0 (mk_heap [4096; 8192] []) 0
             (mk_heap [] [8192; 4096]) 0); [lia | lia |].
    apply pq_init_queue_eq; [lia | discriminate | discriminate]. }
  split; [exact Hwf |]. split; [exact Hm |].
  split; [| exact Hrun].
  rewrite <- Hlen. cbn [app]. rewrite length_replicate. lia.
Qed.

(** C3 as stated fails: after 2^31 pushes into a queue of capacity
    2^31 the [__s32] result of [pq_len] is negative. *)
Lemma conservation_fails_at_2_31 : ~ conservation (2 ^ 31) 0.
Proof.
  intros Hclaim.
  assert (0 < 2 ^ 31 < 2 ^ 32 - 1) as Hr by lia.
  destruct (fill_fresh (2 ^ 31) 0 Hr) as (q' & _ & Hwf & Hm & Hlen & Hrun).
  assert (2 ^ 31 <> 0) as Hnz by lia.
  assert (4096 <> NULL) as Hp by discriminate.
  assert (8192 <> NULL) as Hd by discriminate.
  pose proof (pq_init_queue_eq (2 ^ 31) 4096 8192 [] [] 0 Hnz Hp Hd) as Hinit.
  apply Hclaim in Hinit.
  destruct Hinit as (_ & Hruns).
  specialize (Hruns (map OpPush (replicate (Z.to_nat (2 ^ 31)) 1)) 0).
  destruct Hruns as (evs & q1 & e1 & Hrun1 & Hpq & _).
  rewrite Hrun in Hrun1.
  apply run_result_inj in Hrun1.
  destruct Hrun1 as (Hevs & Hq & He).
  subst evs q1 e1.
  rewrite pushed_ev_pushed, popped_ev_pushed, length_replicate in Hpq.
  rewrite length_spec_fresh, pq_len_wf, Hlen in Hpq by assumption.
  apply Returns_inj in Hpq.
  rewrite to_s32_high in Hpq by lia.
  rewrite Z2Nat.id in Hpq by lia.
  change (Z.of_nat (length (@nil Z))) with 0 in Hpq.
  lia.
Qed.

(** ** The length formula *)

(** C4, amended: in every reachable state of a queue whose
    [array_capacity] is non-zero, [pq_len] is computed from the indices
    alone: it returns the three-case formula converted to [__s32], and
    that is the formula itself, [0] when [head = tail], [tail - head]
    when [tail > head], [(array_capacity - head) + tail] when
    [tail < head], as long as [array_capacity <= 2^31]. *)
Theorem length_formula (q : ptr_queue) (e : Z) :
  reachable q ->
  array_capacity q <> 0 ->
  pq_len (Some q) e = Returns (to_s32 (length_spec q)) (Some q) e /\
  (array_capacity q <= 2 ^ 31 ->
   pq_len (Some q) e = Returns (length_spec q) (Some q) e).
Proof.
  intros Hreach Hcap.
  destruct (reachable_represents q Hreach Hcap) as (l & Hwf & Hm & _).
  rewrite pq_len_wf by assumption.
  split; [reflexivity |].
  intros Hsmall. pose proof (length_spec_range q Hwf).
  rewrite to_s32_small by lia. reflexivity.
Qed.

Lemma fresh_queue_reachable count :
  0 < count < 2 ^ 64 -> reachable (fresh_queue count).
Proof.
  intros Hc.
  apply (reach_init count 0 (mk_heap [4096; 8192] []) 0
           (mk_heap [] [8192; 4096]) 0); [lia | lia |].
  apply pq_init_queue_eq; [lia | discriminate | discriminate].
Qed.

(** The amended C4 on the fresh queue of capacity 4. *)
Lemma length_formula_witness :
  pq_len (Some (fresh_queue 4)) 0
    = Returns (to_s32 (length_spec (fresh_queue 4))) (Some (fresh_queue 4)) 0 /\
  (array_capacity (fresh_queue 4) <= 2 ^ 31 ->
   pq_len (Some (fresh_queue 4)) 0
     = Returns (length_spec (fresh_queue 4)) (Some (fresh_queue 4)) 0).
Proof.
  apply (length_formula (fresh_queue 4) 0).
  - apply fresh_queue_reachable. lia.
  - vm_compute. discriminate.
Defined.

(** C4 as stated fails: the state reached by 2^31 pushes into a queue
    of capacity 2^31 has [tail - head = 2^31], and [pq_len] returns
    [-2^31] there. *)
Lemma length_formula_fails_on_large_queue :
  ~ (forall q e, reachable q ->
       pq_len (Some q) e = Returns (length_spec q) (Some q) e).
Proof.
  intros Hclaim.
  assert (0 < 2 ^ 31 < 2 ^ 32 - 1) as Hr by lia.
  destruct (fill_fresh (2 ^ 31) 0 Hr) as (q' & Hreach & Hwf & Hm & Hlen & _).
  specialize (Hclaim q' 0 Hreach).
  rewrite pq_len_wf, Hlen in Hclaim by assumption.
  apply Returns_inj in Hclaim.
  rewrite to_s32_high in Hclaim by lia.
  lia.
Qed.

(** ** Push: check, then commit *)

(** C5: on a queue state (indices inside the array, mutex free) push
    computes [candidate = (tail + 1) mod array_capacity]; when
    [candidate = head] it returns 1 with [ENOMEM] (queue full) and the
    queue, its indices and every slot, is what it was; otherwise it
    stores the reference in the slot at the old [tail], leaves the other
    slots alone, and sets [tail] to [candidate]. *)
Theorem push_check_then_commit (q : ptr_queue) (p e : Z) :
  pq_wf q -> mtx q = false ->
  let candidate := (tail q + 1) mod array_capacity q in
  (candidate = head q ->
   pq_push (Some q) p e = Returns 1 (Some q) ENOMEM) /\
  (candidate <> head q ->
   exists q',
     pq_push (Some q) p e = Returns 0 (Some q') e /\
     q' = mk_ptr_queue (mtx q) (sync_ready q) (waiting q)
            (store (data q) (tail q) p) (buf q) (head q) candidate
            (array_capacity q) (user_capacity q) /\
     slot q' (tail q) = p /\
     forall i, 0 <= i -> i <> tail q -> slot q' i = slot q i).
Proof.
  intros Hwf Hm candidate. pose proof Hwf as (Hc & Hh & Ht & Hd).
  rewrite pq_push_unfold by assumption.
  rewrite advance_mod by assumption. fold candidate.
  split.
  - intros ->. rewrite Z.eqb_refl. reflexivity.
  - intros Hne. destruct (Z.eqb_spec candidate (head q)); [contradiction |].
    eexists. split; [reflexivity |]. split; [reflexivity |].
    unfold slot, store. simpl. split.
    + rewrite list_lookup_insert_eq by lia. reflexivity.
    + intros i Hi Hit. rewrite list_lookup_insert_ne by lia. reflexivity.
Qed.

(** C5 on the fresh queue of capacity 4. *)
Lemma push_check_then_commit_witness :
  let q := fresh_queue 4 in
  let candidate := (tail q + 1) mod array_capacity q in
  (candidate = head q ->
   pq_push (Some q) 7 0 = Returns 1 (Some q) ENOMEM) /\
  (candidate <> head q ->
   exists q',
     pq_push (Some q) 7 0 = Returns 0 (Some q') 0 /\
     q' = mk_ptr_queue (mtx q) (sync_ready q) (waiting q)
            (store (data q) (tail q) 7) (buf q) (head q) candidate
            (array_capacity q) (user_capacity q) /\
     slot q' (tail q) = 7 /\
     forall i, 0 <= i -> i <> tail q -> slot q' i = slot q i).
Proof.
  apply (push_check_then_commit (fresh_queue 4) 7 0).
  - vm_compute. repeat split; discriminate.
  - reflexivity.
Defined.

(** ** Allocation failures in the initializer *)

(** C6 on the code: when the first or the second allocation fails
    [pq_init] returns the NULL handle with [ENOMEM] and no block stays
    allocated; when the third one (the backing region) fails it sets
    [ENOMEM] but returns the queue object all the same, with both
    earlier blocks live, no backing region, nothing enqueued, and the
    mutex and condition variable not initialised. *)
Theorem pq_init_allocation_failures :
  pq_init 4 16 (mk_heap [0] []) 0 = Returns (mk_heap [] []) None ENOMEM /\
  pq_init 4 16 (mk_heap [4096; 0] []) 0
    = Returns (mk_heap [] []) None ENOMEM /\
  pq_init 4 16 (mk_heap [4096; 8192; 0] []) 0
    = Returns (mk_heap [] [8192; 4096]) (Some (blank_queue 4)) ENOMEM /\
  buf (blank_queue 4) = NULL /\
  sync_ready (blank_queue 4) = false /\
  pq_len (Some (blank_queue 4)) ENOMEM
    = Returns 0 (Some (blank_queue 4)) ENOMEM.
Proof. repeat split; reflexivity. Qed.

(** ** Failures of a non-blocking pop *)

(** Both failures of a non-blocking pop, the lock being held and the
    queue being empty, return NULL and leave [errno] as it was: the
    caller observes the same result. *)
Lemma nonblocking_pop_failures_coincide (q_held q_empty : ptr_queue) (e : Z) :
  mtx q_held = true ->
  mtx q_empty = false -> head q_empty = tail q_empty ->
  pq_pop (Some q_held) 0 e = Returns (NULL, PopWouldBlock) (Some q_held) e /\
  pq_pop (Some q_empty) 0 e = Returns (NULL, PopEmpty) (Some q_empty) e /\
  pop_observed (pq_pop (Some q_held) 0 e)
    = pop_observed (pq_pop (Some q_empty) 0 e).
Proof.
  intros Hheld Hfree Hempty. unfold pq_pop.
  rewrite Hheld, Hfree, Hempty, (Z.eqb_refl (tail q_empty)).
  repeat split; reflexivity.
Qed.

(** C7 on the code.  The comment of [pq_pop] promises "0 otherwise and
    set errno", and the NULL-handle exit does set [errno] to [EINVAL].
    The two failure exits of a non-blocking pop do not: with [errno] 5
    before the call, a pop on a queue whose lock is held and a pop on
    an empty queue both return NULL with [errno] still 5, so the caller
    observes the same result and cannot tell WouldBlock from Empty. *)
Theorem nonblocking_pop_failures_set_no_errno :
  let q_held := mk_ptr_queue true true 0 [7; 0] 0 0 1 2 1 in
  let q_empty := fresh_queue 1 in
  pq_pop None 0 5 = Returns (NULL, PopInvalid) None EINVAL /\
  pq_pop (Some q_held) 0 5 = Returns (NULL, PopWouldBlock) (Some q_held) 5 /\
  pq_pop (Some q_empty) 0 5 = Returns (NULL, PopEmpty) (Some q_empty) 5 /\
  pop_observed (pq_pop (Some q_held) 0 5) = Some (NULL, 5) /\
  pop_observed (pq_pop (Some q_empty) 0 5) = Some (NULL, 5) /\
  ~ pop_failures_distinct.
Proof.
  cbv zeta. repeat split.
  intros Hdistinct.
  apply (Hdistinct (mk_ptr_queue true true 0 [7; 0] 0 0 1 2 1)
           (fresh_queue 1) 5); reflexivity.
Qed.

(** ** State invariants *)




(** ** A null reference in the queue *)

(** C10: pushing NULL onto a queue that is not full succeeds; once the
    entries before it are popped, the pop that removes it returns NULL
    with [errno] untouched, which is also what a non-blocking pop
    returns on the empty queue and on a queue whose lock is held: the
    caller cannot tell the successful pop from the failed ones. *)
Theorem null_reference_pop_ambiguous (q : ptr_queue) (l : list Z) (e : Z)
    (ws : list Z) :
  represents q l ->
  Z.of_nat (length l) < array_capacity q - 1 ->
  length ws = length l ->
  exists q1 q2 q3,
    pq_push (Some q) NULL e = Returns 0 (Some q1) e /\
    run (map OpPop ws) (Some q1) e = (map ev_taken l, Some q2, e) /\
    (forall w, pq_pop (Some q2) w e = Returns (NULL, PopTaken) (Some q3) e) /\
    pq_pop (Some q3) 0 e = Returns (NULL, PopEmpty) (Some q3) e /\
    (forall w q_held,
        mtx q_held = true ->
        pq_pop (Some q_held) 0 e
          = Returns (NULL, PopWouldBlock) (Some q_held) e /\
        pop_observed (pq_pop (Some q2) w e)
          = pop_observed (pq_pop (Some q3) 0 e) /\
        pop_observed (pq_pop (Some q2) w e)
          = pop_observed (pq_pop (Some q_held) 0 e)).
Proof.
  intros Hrep Hroom Hws.
  destruct (represents_push q l NULL e Hrep Hroom)
    as (q1 & Hpush & Hrep1 & _).
  destruct (run_pops l q1 [NULL] ws [] e Hrep1 Hws)
    as (q2 & Hrep2 & _ & _ & _ & Hrun).
  rewrite !app_nil_r in Hrun. simpl in Hrun. rewrite app_nil_r in Hrun.
  destruct (represents_pop q2 NULL [] 0 e Hrep2)
    as (q3 & Hpop0 & Hrep3 & _).
  assert (forall w,
             pq_pop (Some q2) w e = Returns (NULL, PopTaken) (Some q3) e)
    as Hpop.
  { intros w.
    assert (head q2 <> tail q2) as Hne.
    { intros Heq. apply (represents_nil_iff q2 _ Hrep2) in Heq.
      discriminate. }
    pose proof Hrep2 as (_ & Hm & _).
    rewrite pq_pop_unfold in Hpop0 |- * by assumption. exact Hpop0. }
  pose proof (represents_pop_empty q3 e Hrep3) as Hempty.
  exists q1, q2, q3.
  split; [exact Hpush |]. split; [exact Hrun |].
  split; [exact Hpop |]. split; [exact Hempty |].
  intros w q_held Hheld.
  assert (pq_pop (Some q_held) 0 e
          = Returns (NULL, PopWouldBlock) (Some q_held) e) as Hwb.
  { unfold pq_pop. rewrite Hheld. reflexivity. }
  split; [exact Hwb |].
  rewrite (Hpop w), Hempty, Hwb. split; reflexivity.
Qed.

(** C10 on the fresh queue of capacity 4. *)
Lemma null_reference_pop_ambiguous_witness :
  exists q1 q2 q3,
    pq_push (Some (fresh_queue 4)) NULL 5 = Returns 0 (Some q1) 5 /\
    run (map OpPop []) (Some q1) 5 = (map ev_taken [], Some q2, 5) /\
    (forall w, pq_pop (Some q2) w 5 = Returns (NULL, PopTaken) (Some q3) 5) /\
    pq_pop (Some q3) 0 5 = Returns (NULL, PopEmpty) (Some q3) 5 /\
    (forall w q_held,
        mtx q_held = true ->
        pq_pop (Some q_held) 0 5
          = Returns (NULL, PopWouldBlock) (Some q_held) 5 /\
        pop_observed (pq_pop (Some q2) w 5)
          = pop_observed (pq_pop (Some q3) 0 5) /\
        pop_observed (pq_pop (Some q2) w 5)
          = pop_observed (pq_pop (Some q_held) 0 5)).
Proof.
  apply (null_reference_pop_ambiguous (fresh_queue 4) [] 5 []).
  - apply fresh_queue_represents; [lia | vm_compute; discriminate].
  - vm_compute. reflexivity.
  - reflexivity.
Defined.

(** ** Pool mode *)

Lemma pool_refs_length obj_size b n : forall i,
  length (pool_refs n i obj_size b) = n.
Proof.
  induction n as [| n IH]; intros i; simpl; [| rewrite IH]; reflexivity.
Qed.

(** Every address of the pool is the start of one object of the
    region. *)
Lemma pool_refs_elem obj_size b n : forall i a,
  In a (pool_refs n i obj_size b) ->
  exists k, i <= k < i + Z.of_nat n /\ a = b + wrap64 (k * obj_size).
Proof.
  induction n as [| n IH]; intros i a Hin; simpl in Hin; [contradiction |].
  destruct Hin as [<- | Hin].
  - exists i. split; [lia | reflexivity].
  - destruct (IH (i + 1) a Hin) as (k & Hk & ->).
    exists k. split; [lia | reflexivity].
Qed.

Lemma pool_refs_NoDup obj_size b n : forall i,
  0 < obj_size -> 0 <= i ->
  (i + Z.of_nat n) * obj_size <= 2 ^ 64 ->
  NoDup (pool_refs n i obj_size b).
Proof.
  induction n as [| n IH]; intros i Hs Hi Hfit; simpl.
  - constructor.
  - constructor.
    + intros Hin. apply list_elem_of_In in Hin.
      destruct (pool_refs_elem obj_size b n (i + 1) _ Hin) as (k & Hk & Heq).
      rewrite !wrap64_small in Heq by nia. nia.
    + apply IH; [assumption | lia | nia].
Qed.

(** With three allocations that succeed the initializer runs the fill
    loop on the blank queue. *)
Lemma pq_init_pool_eq count obj_size p d b rest lv e :
  count <> 0 -> p <> NULL -> d <> NULL -> b <> NULL ->
  0 < obj_size -> count * obj_size < 2 ^ 64 ->
  pq_init count obj_size (mk_heap (p :: d :: b :: rest) lv) e
    = match init_fill (Z.to_nat count) 0 obj_size b
              (Some (set_buf (blank_queue count) b)) e with
      | Returns _ pq' e' =>
          Returns (mk_heap rest (b :: d :: p :: lv))
                  (option_map set_sync_ready pq') e'
      | Blocks pq' e' => Blocks pq' e'
      end.
Proof.
  intros Hc Hp Hd Hb Hs Hfit. unfold pq_init, calloc. simpl supply.
  destruct (Z.eqb_spec count 0); [contradiction |].
  destruct (Z.eqb_spec p NULL); [contradiction |].
  replace (2 ^ 64 <=? 1 * sizeof_ptr_queue) with false by reflexivity.
  cbn [orb]. simpl supply.
  destruct (Z.eqb_spec p NULL); [contradiction |].
  destruct (Z.eqb_spec d NULL); [contradiction |].
  assert (0 <= wrap32 (wrap64 (count + 1)) < 2 ^ 32) as Hcap
    by (apply Z.mod_pos_bound; reflexivity).
  destruct (Z.leb_spec (2 ^ 64) (wrap32 (wrap64 (count + 1)) * sizeof_ptr))
    as [Hbig |].
  { unfold sizeof_ptr in Hbig. lia. }
  cbn [orb].
  destruct (Z.eqb_spec d NULL); [contradiction |].
  destruct (Z.gtb_spec obj_size 0); [| lia].
  simpl supply. simpl live.
  destruct (Z.leb_spec (2 ^ 64) (count * obj_size)); [lia |].
  destruct (Z.eqb_spec b NULL); [contradiction |].
  cbn [orb]. cbv beta iota zeta.
  destruct (Z.eqb_spec b NULL); [contradiction |].
  reflexivity.
Qed.

Lemma Returns_pq_inj {A} (rv rv' : A) (q q' : ptr_queue) (e e' : Z) :
  Returns rv (Some q) e = Returns rv' (Some q') e' -> q = q'.
Proof. intros H. injection H as _ -> _. reflexivity. Qed.

(** C8, amended: for [pq_init count obj_size] with [0 < count < 2^31]
    and [obj_size > 0], when the three allocations succeed (the backing
    region at a non-null address, inside the 64-bit address space),
    the initializer returns a queue whose [buf] is the region;
    [pq_len] returns [count], the next [count] non-blocking pops return
    distinct non-null addresses of objects lying inside the region, and
    the pop after them finds the queue empty. *)
Theorem pool_mode (count obj_size : Z) :
  0 < count < 2 ^ 31 ->
  0 < obj_size ->
  pool_initialised count obj_size.
Proof.
  intros Hcount Hs p d b rest lv e Hp Hd Hb Hregion.
  destruct (capacity_fields_small count ltac:(lia)) as [Hcap Hu].
  assert (count * obj_size < 2 ^ 64) as Hfit by lia.
  assert (b <> NULL) as Hbn by (unfold NULL; lia).
  rewrite pq_init_pool_eq by (assumption || lia).
  destruct (init_fill_exact obj_size b (Z.to_nat count) 0
              (set_buf (blank_queue count) b) [] e)
    as (q' & Hfill & Hrep & Hcapq & Hbufq).
  { apply (blank_queue_represents count); lia. }
  { simpl. lia. }
  rewrite Hfill. cbn [option_map]. simpl in Hrep.
  change (array_capacity (set_buf (blank_queue count) b))
    with (wrap32 (wrap64 (count + 1))) in Hcapq.
  assert (represents (set_sync_ready q')
            (pool_refs (Z.to_nat count) 0 obj_size b)) as Hrep' by exact Hrep.
  assert (array_capacity (set_sync_ready q') = count + 1) as Hcap'
    by (rewrite <- Hcap; exact Hcapq).
  exists (set_sync_ready q'), e.
  split; [reflexivity |]. split; [exact Hbufq |].
  split.
  - intros e0. rewrite (pq_len_represents _ _ e0 Hrep') by lia.
    rewrite pool_refs_length, Z2Nat.id by lia. reflexivity.
  - exists (pool_refs (Z.to_nat count) 0 obj_size b).
    split; [rewrite pool_refs_length; lia |].
    split; [apply pool_refs_NoDup; lia |].
    split.
    + apply Forall_forall. intros a Hin.
      apply list_elem_of_In in Hin.
      destruct (pool_refs_elem _ _ _ _ _ Hin) as (k & Hk & ->).
      rewrite wrap64_small by nia. unfold NULL. nia.
    + intros e0.
      rewrite <- (app_nil_r (pool_refs _ _ _ _)) in Hrep'.
      destruct (run_pops _ (set_sync_ready q') []
                  (replicate (length (pool_refs (Z.to_nat count) 0
                                        obj_size b)) 0)
                  [OpPop 0] e0 Hrep')
        as (q2 & Hrep2 & _ & _ & _ & Hrun).
      { apply length_replicate. }
      exists q2. rewrite Hrun. cbn [run].
      rewrite (represents_pop_empty q2 e0 Hrep2). reflexivity.
Qed.

(** The amended C8 for a pool of 3 objects of 16 bytes: structure at
    4096, array at 8192, region at 12288. *)
Lemma pool_mode_witness :
  exists q e',
    pq_init 3 16 (mk_heap [4096; 8192; 12288] []) 5
      = Returns (mk_heap [] [12288; 8192; 4096]) (Some q) e' /\
    buf q = 12288 /\
    (forall e0, pq_len (Some q) e0 = Returns 3 (Some q) e0) /\
    exists addrs,
      Z.of_nat (length addrs) = 3 /\
      NoDup addrs /\
      Forall (fun a => a <> NULL /\ 12288 <= a /\
                       a + 16 <= 12288 + 3 * 16) addrs /\
      forall e0, exists q1,
        run (map OpPop (replicate (length addrs) 0) ++ [OpPop 0])
            (Some q) e0
          = (map ev_taken addrs ++ [EvPop NULL PopEmpty], Some q1, e0).
Proof.
  apply (pool_mode 3 16 ltac:(lia) ltac:(lia) 4096 8192 12288 [] [] 5);
    (lia || discriminate).
Defined.

(** C8 as stated fails: [pq_init (2^32) 1] with all three allocations
    succeeding has a region of 2^32 one-byte objects, but its 32-bit
    [array_capacity] is 1, every push of the fill loop is refused, and
    the queue it returns is empty: [pq_len] returns 0, not 2^32. *)
Lemma pool_initialised_fails_at_2_32 : ~ pool_initialised (2 ^ 32) 1.
Proof.
  intros Hclaim.
  assert (2 ^ 32 <> 0) as Hnz by lia.
  assert (4096 <> NULL) as Hp by discriminate.
  assert (8192 <> NULL) as Hd by discriminate.
  assert (12288 <> NULL) as Hb by discriminate.
  assert (0 < 1) as Hs by lia.
  assert (2 ^ 32 * 1 < 2 ^ 64) as Hfit by lia.
  pose proof (pq_init_pool_eq (2 ^ 32) 1 4096 8192 12288 [] [] 0
                Hnz Hp Hd Hb Hs Hfit) as Hinit.
  assert (represents (set_buf (blank_queue (2 ^ 32)) 12288) []) as Hrep.
  { apply (blank_queue_represents (2 ^ 32)); [lia | vm_compute; discriminate]. }
  assert (Z.of_nat (length (@nil Z))
          = array_capacity (set_buf (blank_queue (2 ^ 32)) 12288) - 1)
    as Hfull by reflexivity.
  rewrite (init_fill_full 1 12288 (Z.to_nat (2 ^ 32)) 0 _ [] 0 Hrep Hfull)
    in Hinit.
  cbn [option_map] in Hinit.
  assert (0 < 12288) as Hbpos by lia.
  assert (12288 + 2 ^ 32 * 1 <= 2 ^ 64) as Hregion by lia.
  destruct (Hclaim 4096 8192 12288 [] [] 0 Hp Hd Hbpos Hregion)
    as (q & e' & Hinit' & _ & Hlen & _).
  rewrite Hinit in Hinit'. apply Returns_pq_inj in Hinit'. subst q.
  specialize (Hlen 0).
  rewrite pq_len_wf in Hlen by apply Hrep.
  apply Returns_inj in Hlen.
  change (length_spec (set_sync_ready (set_buf (blank_queue (2 ^ 32)) 12288)))
    with 0 in Hlen.
  vm_compute in Hlen. discriminate.
Qed.

(** ** The testbench, in one thread *)

(** [fill] then [empty] of testbench.c on [pq_init(10, 0)]: pushes of
    1..10 return 0, the push of 11 returns 1, pops return 1..10 and
    then NULL. *)
Example testbench_fill_empty :
  fst (fst (run (map OpPush (one_to_ten ++ [11])
                   ++ map OpPop (replicate 11 0))
              (Some (fresh_queue 10)) 0))
  = map ev_pushed one_to_ten ++ [EvPush 11 1]
      ++ map ev_taken one_to_ten ++ [EvPop NULL PopEmpty].
Proof. reflexivity. Qed.

(** A pool of three 16-byte objects at address 12288. *)
Example pool_of_three :
  exists q,
    pq_init 3 16 (mk_heap [4096; 8192; 12288] []) 0
      = Returns (mk_heap [] [12288; 8192; 4096]) (Some q) 0 /\
    data q = [12288; 12304; 12320; NULL] /\
    head q = 0 /\ tail q = 3 /\ buf q = 12288 /\ sync_ready q = true.
Proof. eexists. split; [reflexivity | repeat split]. Qed.

(** * Further properties of the code *)

(** ** Emptiness, length and the non-blocking pop agree *)





(** ** Pop makes room, push makes data *)

(** On a queue holding at least one entry a pop (blocking or not)
    returns the oldest entry, and the push that follows it is never
    refused.  On a queue with room a push succeeds, and the pop that
    follows it (blocking or not) returns an entry: it neither pends nor
    finds the queue empty. *)
Theorem pop_push_alternate (q : ptr_queue) (l : list Z) (p w e : Z) :
  represents q l ->
  (forall x l', l = x :: l' ->
     exists q1 q2,
       pq_pop (Some q) w e = Returns (x, PopTaken) (Some q1) e /\
       pq_push (Some q1) p e = Returns 0 (Some q2) e /\
       represents q2 (l' ++ [p])) /\
  (Z.of_nat (length l) < array_capacity q - 1 ->
     exists q1 q2 x l',
       pq_push (Some q) p e = Returns 0 (Some q1) e /\
       l ++ [p] = x :: l' /\
       pq_pop (Some q1) w e = Returns (x, PopTaken) (Some q2) e /\
       represents q2 l').
Proof.
  intros Hrep. split.
  - intros x l' ->.
    pose proof (represents_length_le q _ Hrep) as Hle. simpl length in Hle.
    destruct (represents_pop q x l' w e Hrep) as (q1 & Hpop & Hrep1 & Hcap1 & _).
    destruct (represents_push q1 l' p e Hrep1 ltac:(lia))
      as (q2 & Hpush & Hrep2 & _).
    exists q1, q2. auto.
  - intros Hroom.
    destruct (represents_push q l p e Hrep Hroom) as (q1 & Hpush & Hrep1 & _).
    destruct (l ++ [p]) as [| x l'] eqn:Hl.
    { destruct l; discriminate. }
    destruct (represents_pop q1 x l' w e Hrep1) as (q2 & Hpop & Hrep2 & _).
    exists q1, q2, x, l'. auto.
Qed.

(** The queue of capacity 4 that holds the one entry 7 at slot 2. *)
Lemma one_entry_queue_represents :
  represents (mk_ptr_queue false true 0 [0; 0; 7; 0; 0] 0 2 3 5 4) [7].
Proof.
  unfold represents, pq_wf, length_spec, ring_idx. simpl.
  split; [lia |]. split; [reflexivity |]. split; [reflexivity |].
  split; [reflexivity |].
  intros [| i] x Hx; simpl in Hx; [| discriminate].
  injection Hx as <-. reflexivity.
Qed.

(** The alternation on a queue of capacity 4 that holds one entry, so
    that it has both an entry to pop and room to push: a blocking pop
    returns the entry 7 and the push of 9 after it succeeds; the push
    of 9 succeeds and the blocking pop after it returns an entry. *)
Lemma pop_push_alternate_witness :
  let q := mk_ptr_queue false true 0 [0; 0; 7; 0; 0] 0 2 3 5 4 in
  (exists q1 q2,
     pq_pop (Some q) 1 0 = Returns (7, PopTaken) (Some q1) 0 /\
     pq_push (Some q1) 9 0 = Returns 0 (Some q2) 0 /\
     represents q2 ([] ++ [9])) /\
  (exists q1 q2 x l',
     pq_push (Some q) 9 0 = Returns 0 (Some q1) 0 /\
     [7] ++ [9] = x :: l' /\
     pq_pop (Some q1) 1 0 = Returns (x, PopTaken) (Some q2) 0 /\
     represents q2 l').
Proof.
  cbv zeta.
  pose proof (pop_push_alternate
                (mk_ptr_queue false true 0 [0; 0; 7; 0; 0] 0 2 3 5 4)
                [7] 9 1 0 one_entry_queue_represents) as [Hpop Hpush].
  split.
  - exact (Hpop 7 [] eq_refl).
  - apply Hpush. simpl. lia.
Defined.

(** ** errno over a run *)

(** Over any single-threaded run on a represented queue, [errno] ends
    as [ENOMEM] when some push of the run was refused and is otherwise
    what it was before the run: successful pushes and all pops leave it
    alone, and nothing clears it. *)
Theorem errno_after_run (ops : list op) : forall q l e,
  represents q l ->
  exists evs q' e',
    run ops (Some q) e = (evs, Some q', e') /\
    e' = (if refused evs then ENOMEM else e).
Proof.
  induction ops as [| o ops IH]; intros q l e Hrep.
  - exists [], q, e. auto.
  - destruct o as [p | w]; simpl.
    + pose proof (represents_length_le q l Hrep) as Hle.
      destruct (Z.eq_dec (Z.of_nat (length l)) (array_capacity q - 1))
        as [Hfull | Hroom].
      * rewrite (represents_push_full q l p e Hrep Hfull).
        destruct (IH q l ENOMEM Hrep) as (evs & q' & e' & Hr & He).
        rewrite Hr. exists (EvPush p 1 :: evs), q', e'.
        split; [reflexivity |]. simpl. rewrite He.
        destruct (refused evs); reflexivity.
      * destruct (represents_push q l p e Hrep ltac:(lia))
          as (q1 & Hpush & Hrep1 & _).
        rewrite Hpush.
        destruct (IH q1 _ e Hrep1) as (evs & q' & e' & Hr & He).
        rewrite Hr. exists (EvPush p 0 :: evs), q', e'.
        split; [reflexivity | exact He].
    + destruct l as [| x l].
      * destruct (Z.eq_dec w 0) as [-> | Hw].
        -- rewrite (represents_pop_empty q e Hrep).
           destruct (IH q [] e Hrep) as (evs & q' & e' & Hr & He).
           rewrite Hr. exists (EvPop NULL PopEmpty :: evs), q', e'.
           split; [reflexivity | exact He].
        -- assert (head q = tail q) as Heq
             by (apply (represents_nil_iff q [] Hrep); reflexivity).
           pose proof Hrep as (_ & Hm & _).
           unfold pq_pop. rewrite Hm, Heq, Z.eqb_refl.
           destruct (Z.eqb_spec w 0); [contradiction |].
           exists [], (set_waiting q 1), e. auto.
      * destruct (represents_pop q x l w e Hrep) as (q1 & Hpop & Hrep1 & _).
        rewrite Hpop.
        destruct (IH q1 l e Hrep1) as (evs & q' & e' & Hr & He).
        rewrite Hr. exists (EvPop x PopTaken :: evs), q', e'.
        split; [reflexivity | exact He].
Qed.

(** [errno] over runs on the fresh queue of capacity 4. *)
Lemma errno_after_run_witness :
  exists evs q' e',
    run [OpPush 7; OpPop 0] (Some (fresh_queue 4)) 5 = (evs, Some q', e') /\
    e' = (if refused evs then ENOMEM else 5).
Proof.
  apply (errno_after_run [OpPush 7; OpPop 0] (fresh_queue 4) [] 5).
  apply fresh_queue_represents; [lia | vm_compute; discriminate].
Defined.

(** ** Slots without a live entry hold NULL *)

Lemma push_keeps_dead_null q p e rv q' e' :
  pq_wf q -> mtx q = false -> dead_slots_null q ->
  pq_push (Some q) p e = Returns rv (Some q') e' ->
  dead_slots_null q'.
Proof.
  intros Hwf Hm Hdead. pose proof Hwf as (Hc & Hh & Ht & Hd).
  rewrite pq_push_unfold by assumption.
  rewrite advance_wf by assumption.
  destruct (Z.eqb_spec (if tail q + 1 =? array_capacity q then 0
                        else tail q + 1) (head q)) as [Hfull | Hroom];
    intros H; injection H as _ <- _; [exact Hdead |].
  unfold dead_slots_null, in_live, store in *. simpl.
  intros i Hi Hnl.
  destruct (Z.eq_dec i (tail q)) as [-> | Hne].
  - exfalso. apply Hnl. zcases; lia.
  - rewrite list_lookup_insert_ne by lia.
    apply Hdead; [exact Hi |].
    intros Hl. apply Hnl. zcases; lia.
Qed.

Lemma pop_keeps_dead_null q w e r q' e' :
  pq_wf q -> mtx q = false -> dead_slots_null q ->
  pq_pop (Some q) w e = Returns r (Some q') e' ->
  dead_slots_null q'.
Proof.
  intros Hwf Hm Hdead. pose proof Hwf as (Hc & Hh & Ht & Hd).
  destruct (Z.eq_dec (head q) (tail q)) as [Heq | Hne].
  - unfold pq_pop. rewrite Hm, Heq, Z.eqb_refl.
    destruct (w =? 0); [| discriminate].
    intros H; injection H as _ <- _. exact Hdead.
  - rewrite pq_pop_unfold by assumption.
    rewrite advance_wf by assumption.
    intros H; injection H as _ <- _.
    unfold dead_slots_null, in_live, store in *. simpl.
    intros i Hi Hnl.
    destruct (Z.eq_dec i (head q)) as [-> | Hne'].
    + apply list_lookup_insert_eq. lia.
    + rewrite list_lookup_insert_ne by lia.
      apply Hdead; [exact Hi |].
      intros Hl. apply Hnl. zcases; lia.
Qed.

Lemma blank_queue_dead_null count : dead_slots_null (blank_queue count).
Proof.
  unfold dead_slots_null. simpl. intros i Hi _.
  apply lookup_replicate_2. lia.
Qed.

Lemma init_fill_keeps_dead_null obj_size b n : forall i q l e u q' e',
  represents q l -> dead_slots_null q ->
  init_fill n i obj_size b (Some q) e = Returns u (Some q') e' ->
  dead_slots_null q'.
Proof.
  induction n as [| n IH]; intros i q l e u q' e' Hrep Hdead; simpl.
  - intros H. injection H as _ <- _. exact Hdead.
  - destruct (pq_push (Some q) (b + wrap64 (i * obj_size)) e)
      as [rv [q1 |] e1 | pq1 e1] eqn:Hpush.
    + destruct (represents_step_push q l _ e rv q1 e1 Hrep Hpush)
        as (l1 & Hrep1).
      pose proof Hrep as (Hwf & Hm & _).
      pose proof (push_keeps_dead_null q _ e rv q1 e1 Hwf Hm Hdead Hpush).
      apply (IH (i + 1) q1 l1 e1); assumption.
    + pose proof Hrep as (_ & Hm & _). rewrite pq_push_unfold in Hpush
        by assumption.
      destruct (_ =? _) in Hpush; discriminate.
    + discriminate.
Qed.

(** In every reachable state of a queue with a non-zero
    [array_capacity], every slot of the array that holds no live entry
    holds NULL: the array starts zeroed, a push writes only the slot
    that becomes live, and a pop clears the slot it frees.  No stale
    reference is left behind. *)
Theorem dead_slots_stay_null (q : ptr_queue) :
  reachable q ->
  array_capacity q <> 0 ->
  dead_slots_null q /\
  (head q = tail q -> forall i, 0 <= i < array_capacity q -> slot q i = NULL).
Proof.
  intros Hreach Hcap.
  assert (dead_slots_null q) as Hdead.
  { induction Hreach as [count obj_size h e h' e' q Hc Ho Hinit
                        | q p e rv q' e' Hr IH Hpush
                        | q w e r q' e' Hr IH Hpop
                        | q e rv q' e' Hr IH Hlen
                        | q e rv q' e' Hr IH Hemp].
    - rewrite (pq_init_capacity _ _ _ _ _ _ _ Hinit) in Hcap.
      apply pq_init_inv in Hinit.
      destruct Hinit as (_ & [(_ & -> & _) | [(_ & -> & _) | (_ & _ & b & qf & _ & Hfill & ->)]]).
      + exact (blank_queue_dead_null count).
      + exact (blank_queue_dead_null count).
      + assert (represents (set_buf (blank_queue count) b) []) as Hrep
          by exact (blank_queue_represents count Hc Hcap).
        assert (dead_slots_null (set_buf (blank_queue count) b)) as Hd0
          by exact (blank_queue_dead_null count).
        exact (init_fill_keeps_dead_null _ _ _ _ _ _ _ _ _ _ Hrep Hd0 Hfill).
    - rewrite (pq_push_capacity _ _ _ _ _ _ Hpush) in Hcap.
      destruct (reachable_represents q Hr Hcap) as (l & Hwf & Hm & _).
      eapply push_keeps_dead_null; eauto.
    - rewrite (pq_pop_capacity _ _ _ _ _ _ Hpop) in Hcap.
      destruct (reachable_represents q Hr Hcap) as (l & Hwf & Hm & _).
      eapply pop_keeps_dead_null; eauto.
    - apply pq_len_state in Hlen. subst q'. auto.
    - apply pq_empty_state in Hemp. subst q'. auto. }
  split; [exact Hdead |].
  intros Heq i Hi. unfold slot.
  rewrite (Hdead i Hi); [reflexivity |].
  unfold in_live. rewrite Heq. zcases; lia.
Qed.

(** The invariant on the fresh queue of capacity 4. *)
Lemma dead_slots_stay_null_witness :
  dead_slots_null (fresh_queue 4) /\
  (head (fresh_queue 4) = tail (fresh_queue 4) ->
   forall i, 0 <= i < array_capacity (fresh_queue 4) ->
             slot (fresh_queue 4) i = NULL).
Proof.
  apply (dead_slots_stay_null (fresh_queue 4)).
  - apply fresh_queue_reachable. lia.
  - vm_compute. discriminate.
Defined.

(** ** The heap across pq_init and pq_free *)

Lemma remove_same a l :
  ~ In a l -> List.remove Z.eq_dec a (a :: l) = l.
Proof.
  intros Hn. simpl. destruct (Z.eq_dec a a); [| contradiction].
  apply notin_remove. exact Hn.
Qed.

Lemma remove_other a x l :
  a <> x ->
  List.remove Z.eq_dec a (x :: l) = x :: List.remove Z.eq_dec a l.
Proof.
  intros Hne. simpl. destruct (Z.eq_dec a x); [contradiction | reflexivity].
Qed.

(** What one [calloc] does to the heap. *)
Lemma calloc_cases nmemb size h a h1 :
  calloc nmemb size h = (a, h1) ->
  a = NULL /\ live h1 = live h
  \/ a <> NULL /\ nmemb * size < 2 ^ 64 /\
     exists rest, supply h = a :: rest /\ h1 = mk_heap rest (a :: live h).
Proof.
  unfold calloc. destruct (supply h) as [| x rest].
  - intros H. injection H as <- <-. auto.
  - destruct (Z.eqb_spec x NULL) as [Hx | Hx]; simpl.
    + intros H. injection H as <- <-. auto.
    + destruct (Z.leb_spec (2 ^ 64) (nmemb * size)) as [Hbig | Hfit].
      * intros H. injection H as <- <-. auto.
      * intros H. injection H as <- <-. right. eauto.
Qed.

Lemma pq_push_some q p e rv pq' e' :
  pq_push (Some q) p e = Returns rv pq' e' ->
  exists q', pq' = Some q' /\ buf q' = buf q /\ mtx q' = mtx q.
Proof.
  unfold pq_push. destruct (mtx q) eqn:Hm; [discriminate |].
  match goal with |- context [if ?c then _ else _] => destruct c end;
    intros H; injection H as _ <- _; eexists; simpl; auto.
Qed.

Lemma init_fill_some obj_size b n : forall i q e,
  mtx q = false ->
  exists q' e',
    init_fill n i obj_size b (Some q) e = Returns tt (Some q') e' /\
    buf q' = buf q.
Proof.
  induction n as [| n IH]; intros i q e Hm; simpl.
  - exists q, e. auto.
  - destruct (pq_push (Some q) (b + wrap64 (i * obj_size)) e)
      as [rv pq1 e1 | pq1 e1] eqn:Hpush.
    + destruct (pq_push_some _ _ _ _ _ _ Hpush) as (q1 & -> & Hb & Hm1).
      destruct (IH (i + 1) q1 e1 ltac:(congruence)) as (q' & e' & H1 & H2).
      exists q', e'. split; [exact H1 | congruence].
    + unfold pq_push in Hpush. rewrite Hm in Hpush.
      match type of Hpush with
      | context [if ?c then _ else _] => destruct c
      end; discriminate.
Qed.

(** The blocks [pq_init] holds when it returns a queue: the structure
    and the array, and the backing region exactly when [buf] is set. *)
Lemma pq_init_live count obj_size p d rest lv e h' q e' :
  pq_init count obj_size (mk_heap (p :: d :: rest) lv) e
    = Returns h' (Some q) e' ->
  buf q = NULL /\ live h' = d :: p :: lv
  \/ buf q <> NULL /\ live h' = buf q :: d :: p :: lv.
Proof.
  unfold pq_init.
  destruct (Z.eqb_spec count 0); [discriminate |].
  destruct (calloc 1 sizeof_ptr_queue _) as [a h1] eqn:H1.
  destruct (Z.eqb_spec a NULL) as [| Ha]; [discriminate |].
  apply calloc_cases in H1.
  destruct H1 as [(? & _) | (_ & _ & r1 & Hs1 & ->)]; [contradiction |].
  simpl in Hs1. injection Hs1 as <- <-.
  destruct (calloc (wrap32 (wrap64 (count + 1))) sizeof_ptr _)
    as [a2 h2] eqn:H2.
  destruct (Z.eqb_spec a2 NULL) as [| Ha2]; [discriminate |].
  apply calloc_cases in H2.
  destruct H2 as [(? & _) | (_ & _ & r2 & Hs2 & ->)]; [contradiction |].
  simpl in Hs2. injection Hs2 as <- <-.
  destruct (obj_size >? 0).
  - destruct (calloc count obj_size _) as [b h3] eqn:H3.
    apply calloc_cases in H3.
    destruct (Z.eqb_spec b NULL) as [Hb | Hb].
    + destruct H3 as [(_ & Hl) | (? & _)]; [| contradiction].
      intros H. injection H as <- <- _. left. simpl in Hl. auto.
    + destruct H3 as [(? & _) | (_ & _ & r3 & _ & ->)]; [contradiction |].
      destruct (init_fill_some obj_size b (Z.to_nat count) 0
                  (set_buf (mk_ptr_queue false false 0
                     (replicate (Z.to_nat (wrap32 (wrap64 (count + 1)))) NULL)
                     NULL 0 0 (wrap32 (wrap64 (count + 1))) (wrap32 count)) b)
                  e eq_refl) as (qf & ef & Hfill & Hbuf).
      rewrite Hfill. intros H. injection H as <- <- _.
      right. simpl in Hbuf |- *. rewrite Hbuf. auto.
  - intros H. injection H as <- <- _. left. auto.
Qed.

(** Whatever queue [pq_init] returns, with or without a backing region
    and also on its out-of-memory return with a handle, [pq_free]
    called with the addresses of the structure and of the array
    returns 0, leaves [errno] alone and releases every block the
    initializer allocated: the live blocks are those from before
    [pq_init].  (The allocator hands out addresses that are distinct
    and not already live.) *)
Theorem init_then_free_releases_all
    (count obj_size p d : Z) (rest lv : list Z) (e e2 : Z)
    (h' : heap) (q : ptr_queue) (e' : Z) :
  pq_init count obj_size (mk_heap (p :: d :: rest) lv) e
    = Returns h' (Some q) e' ->
  p <> d -> ~ In p lv -> ~ In d lv ->
  (buf q <> NULL -> buf q <> p /\ buf q <> d /\ ~ In (buf q) lv) ->
  exists h'',
    pq_free p d (Some q) h' e2 = (0, h'', e2) /\ live h'' = lv.
Proof.
  intros Hinit Hpd Hp Hd Hb.
  assert (d <> NULL) as Hdn.
  { unfold pq_init in Hinit.
    destruct (count =? 0); [discriminate |].
    destruct (calloc 1 sizeof_ptr_queue _) as [a h1] eqn:H1.
    destruct (Z.eqb_spec a NULL); [discriminate |].
    apply calloc_cases in H1.
    destruct H1 as [(? & _) | (_ & _ & r1 & Hs1 & ->)]; [contradiction |].
    simpl in Hs1. injection Hs1 as <- <-.
    destruct (calloc (wrap32 (wrap64 (count + 1))) sizeof_ptr _)
      as [a2 h2] eqn:H2.
    destruct (Z.eqb_spec a2 NULL); [discriminate |].
    apply calloc_cases in H2.
    destruct H2 as [(? & _) | (Hn & _ & r2 & Hs2 & _)]; [contradiction |].
    simpl in Hs2. injection Hs2 as <- _. exact Hn. }
  unfold pq_free, free.
  destruct (Z.eqb_spec d NULL); [contradiction |].
  destruct (pq_init_live _ _ _ _ _ _ _ _ _ _ Hinit) as [(Hbuf & Hl) | (Hbuf & Hl)].
  - destruct (Z.eqb_spec (buf q) NULL); [| contradiction].
    eexists. split; [reflexivity |]. simpl. rewrite Hl.
    rewrite remove_same by (simpl; intuition congruence).
    apply remove_same. exact Hp.
  - destruct (Z.eqb_spec (buf q) NULL); [contradiction |].
    destruct (Hb Hbuf) as (Hbp & Hbd & Hbl).
    eexists. split; [reflexivity |]. simpl. rewrite Hl.
    rewrite (remove_same (buf q)) by (simpl; intuition congruence).
    rewrite remove_same by (simpl; intuition congruence).
    apply remove_same. exact Hp.
Qed.

(** Initialising and freeing a pool of 3 objects of 16 bytes, with one
    other block (at 77) live throughout. *)
Lemma init_then_free_releases_all_witness :
  exists h'',
    pq_free 4096 8192
      (Some (set_sync_ready
               (mk_ptr_queue false false 0 [12288; 12304; 12320; NULL]
                  12288 0 3 4 3)))
      (mk_heap [] [12288; 8192; 4096; 77]) 5 = (0, h'', 5) /\
    live h'' = [77].
Proof.
  apply (init_then_free_releases_all 3 16 4096 8192 [12288] [77] 0 5
           (mk_heap [] [12288; 8192; 4096; 77])
           (set_sync_ready
              (mk_ptr_queue false false 0 [12288; 12304; 12320; NULL]
                 12288 0 3 4 3)) 0).
  - reflexivity.
  - discriminate.
  - simpl. intuition discriminate.
  - simpl. intuition discriminate.
  - intros _. simpl. intuition discriminate.
Defined.

(** For a [size_t] count whose 32-bit [array_capacity],
    [(count + 1) mod 2^32], is non-zero, [pq_init] returns: the pushes
    of its fill loop stay inside the array and take a mutex nobody else
    can hold yet.  When it returns a queue, the queue is well formed.
    When it returns the NULL handle, [errno] is [EINVAL] for a zero
    count and [ENOMEM] otherwise, and it has released what it
    allocated: the live blocks are those from before the call.  (The
    allocator hands out addresses that are not already live.) *)
Theorem pq_init_null_return (count obj_size : Z) (h : heap) (e : Z) :
  0 <= count < 2 ^ 64 ->
  wrap32 (wrap64 (count + 1)) <> 0 ->
  (forall a, In a (supply h) -> ~ In a (live h)) ->
  exists h' pq e',
    pq_init count obj_size h e = Returns h' pq e' /\
    (forall q, pq = Some q -> exists l, represents q l) /\
    (pq = None ->
     live h' = live h /\
     e' = (if count =? 0 then EINVAL else ENOMEM)).
Proof.
  intros Hcount Hcap Hfresh.
  assert (exists h' pq e',
             pq_init count obj_size h e = Returns h' pq e' /\
             (pq = None ->
              live h' = live h /\
              e' = (if count =? 0 then EINVAL else ENOMEM))) as Hret.
  { unfold pq_init.
    destruct (Z.eqb_spec count 0) as [Hc | Hc].
    { exists h, None, EINVAL. auto. }
    destruct (calloc 1 sizeof_ptr_queue h) as [a h1] eqn:H1.
    apply calloc_cases in H1.
    destruct (Z.eqb_spec a NULL) as [Ha | Ha].
    { destruct H1 as [(_ & Hl) | (? & _)]; [| contradiction].
      exists h1, None, ENOMEM. auto. }
    destruct H1 as [(? & _) | (_ & _ & r1 & Hs1 & ->)]; [contradiction |].
    destruct (calloc (wrap32 (wrap64 (count + 1))) sizeof_ptr _)
      as [a2 h2] eqn:H2.
    apply calloc_cases in H2.
    destruct (Z.eqb_spec a2 NULL) as [Ha2 | Ha2].
    { destruct H2 as [(_ & Hl) | (? & _)]; [| contradiction].
      eexists _, None, ENOMEM. split; [reflexivity |].
      intros _. split; [| reflexivity].
      unfold free. simpl. simpl in Hl. rewrite Hl.
      apply remove_same. apply Hfresh. rewrite Hs1. left. reflexivity. }
    destruct H2 as [(? & _) | (_ & _ & r2 & Hs2 & ->)]; [contradiction |].
    destruct (obj_size >? 0).
    - destruct (calloc count obj_size _) as [b h3].
      destruct (Z.eqb_spec b NULL) as [Hb | Hb].
      + eexists _, (Some _), ENOMEM. split; [reflexivity | discriminate].
      + destruct (init_fill_some obj_size b (Z.to_nat count) 0
                    (set_buf (mk_ptr_queue false false 0
                       (replicate (Z.to_nat (wrap32 (wrap64 (count + 1)))) NULL)
                       NULL 0 0 (wrap32 (wrap64 (count + 1))) (wrap32 count)) b)
                    e eq_refl) as (qf & ef & Hfill & _).
        rewrite Hfill.
        eexists _, (Some _), ef. split; [reflexivity | discriminate].
    - eexists _, (Some _), e. split; [reflexivity | discriminate]. }
  destruct Hret as (h' & pq & e' & Hinit & Hnull).
  exists h', pq, e'. split; [exact Hinit |]. split; [| exact Hnull].
  intros q ->.
  destruct (pq_init_represents count obj_size h e h' e' q Hcount Hinit)
    as (l & Hl & _).
  { rewrite (pq_init_capacity _ _ _ _ _ _ _ Hinit). exact Hcap. }
  exists l. exact Hl.
Qed.

(** [pq_init] with an allocator whose second allocation fails. *)
Lemma pq_init_null_return_witness :
  exists h' pq e',
    pq_init 4 16 (mk_heap [4096; 0; 12288] [77]) 5 = Returns h' pq e' /\
    (forall q, pq = Some q -> exists l, represents q l) /\
    (pq = None ->
     live h' = live (mk_heap [4096; 0; 12288] [77]) /\
     e' = (if 4 =? 0 then EINVAL else ENOMEM)).
Proof.
  apply (pq_init_null_return 4 16 (mk_heap [4096; 0; 12288] [77]) 5).
  - lia.
  - vm_compute. discriminate.
  - simpl. intros a Ha Hl. intuition (subst; discriminate).
Defined.

(** ** The loops of the testbench *)

Lemma count_from_length n : forall i, length (count_from n i) = n.
Proof. induction n as [| n IH]; intros i; simpl; [| rewrite IH]; reflexivity. Qed.

Lemma count_from_nonnull n : forall i,
  1 <= i -> Forall (fun x => x <> NULL) (count_from n i).
Proof.
  induction n as [| n IH]; intros i Hi; simpl; constructor.
  - unfold NULL. lia.
  - apply IH. lia.
Qed.

Lemma fill_loop_spec n : forall q l i fuel e,
  represents q l ->
  Z.of_nat n = array_capacity q - 1 - Z.of_nat (length l) ->
  (n < fuel)%nat ->
  0 <= i -> i + Z.of_nat n < 2 ^ 64 ->
  exists q',
    Testbench.fill_loop fuel i (Some q) e
      = Some (map ev_pushed (count_from n i) ++ [EvPush (i + Z.of_nat n) 1],
              Some q', ENOMEM) /\
    represents q' (l ++ count_from n i) /\
    array_capacity q' = array_capacity q /\
    Z.of_nat (length (l ++ count_from n i)) = user_capacity q'.
Proof.
  induction n as [| n IH]; intros q l i fuel e Hrep Hroom Hfuel Hi Hbound;
    (destruct fuel as [| fuel]; [lia |]); cbn [Testbench.fill_loop].
  - rewrite (represents_push_full q l i e Hrep ltac:(lia)).
    exists q. cbn. rewrite Z.add_0_r, app_nil_r.
    split; [reflexivity |]. split; [exact Hrep |]. split; [reflexivity |].
    destruct Hrep as (_ & _ & Hu & _). lia.
  - destruct (represents_push q l i e Hrep ltac:(lia))
      as (q1 & Hpush & Hrep1 & Hcap1 & _).
    rewrite Hpush. cbn [Z.eqb].
    rewrite wrap64_small by lia.
    destruct (IH q1 (l ++ [i]) (i + 1) fuel e Hrep1)
      as (q' & Hfill & Hrep' & Hcap' & Hlen'); try lia.
    { rewrite length_app, Hcap1. simpl length. lia. }
    rewrite Hfill. exists q'.
    rewrite <- app_assoc in Hrep', Hlen'. cbn [count_from map app].
    replace (i + 1 + Z.of_nat n) with (i + Z.of_nat (S n)) by lia.
    split; [reflexivity |]. split; [exact Hrep' |].
    split; [congruence | exact Hlen'].
Qed.

(** [fill] on a queue with [room] free places: given fuel for
    [room + 1] rounds it stops; the pushes of 1, ..., [room] return 0,
    the push of [room + 1] returns 1 and sets [ENOMEM]; the queue then
    holds [user_capacity] entries, the new ones behind the old. *)
Theorem fill_until_full (q : ptr_queue) (l : list Z) (fuel : nat) (e : Z) :
  represents q l ->
  let room := array_capacity q - 1 - Z.of_nat (length l) in
  (Z.to_nat room < fuel)%nat ->
  exists q',
    Testbench.fill fuel (Some q) e
      = Some (map ev_pushed (count_from (Z.to_nat room) 1)
                ++ [EvPush (room + 1) 1], Some q', ENOMEM) /\
    represents q' (l ++ count_from (Z.to_nat room) 1) /\
    Z.of_nat (length (l ++ count_from (Z.to_nat room) 1)) = user_capacity q'.
Proof.
  intros Hrep room Hfuel.
  pose proof (represents_length_le q l Hrep) as Hle.
  pose proof Hrep as ((Hc & _) & _).
  destruct (fill_loop_spec (Z.to_nat room) q l 1 fuel e Hrep)
    as (q' & Hfill & Hrep' & _ & Hlen'); try (unfold room in *; lia).
  exists q'. unfold Testbench.fill. rewrite Hfill.
  replace (1 + Z.of_nat (Z.to_nat room)) with (room + 1)
    by (unfold room; lia).
  auto.
Qed.

(** [fill] on the fresh queue of capacity 4. *)
Lemma fill_until_full_witness :
  exists q',
    Testbench.fill 5 (Some (fresh_queue 4)) 0
      = Some (map ev_pushed (count_from 4 1) ++ [EvPush 5 1],
              Some q', ENOMEM) /\
    represents q' ([] ++ count_from 4 1) /\
    Z.of_nat (length ([] ++ count_from 4 1)) = user_capacity q'.
Proof.
  apply (fill_until_full (fresh_queue 4) [] 5 0).
  - apply fresh_queue_represents; [lia | vm_compute; discriminate].
  - vm_compute. lia.
Defined.

Lemma empty_loop_spec l1 : forall q l2 i fuel e,
  represents q (l1 ++ l2) ->
  Forall (fun x => x <> NULL) l1 ->
  (forall x l2', l2 = x :: l2' -> x = NULL) ->
  (length l1 < fuel)%nat ->
  i + Z.of_nat (length l1) < INT_MAX ->
  exists q',
    Testbench.empty_loop fuel i (Some q) e
      = Testbench.EmptyDone
          (numbered i
             (map ev_taken l1
                ++ [EvPop NULL (match l2 with
                                | [] => PopEmpty
                                | _ :: _ => PopTaken
                                end)]))
          (Some q') e /\
    represents q' (tl l2) /\
    array_capacity q' = array_capacity q.
Proof.
  induction l1 as [| x l1 IH]; intros q l2 i fuel e Hrep Hnn Hl2 Hfuel Hint;
    (destruct fuel as [| fuel]; [simpl in Hfuel; lia |]);
    cbn [Testbench.empty_loop]; simpl length in Hint.
  - simpl in Hrep. destruct l2 as [| y l2].
    + rewrite (represents_pop_empty q e Hrep).
      destruct (Z.leb_spec INT_MAX i); [lia |].
      exists q. auto.
    + rewrite (Hl2 y l2 eq_refl) in Hrep.
      destruct (represents_pop q NULL l2 0 e Hrep)
        as (q1 & Hpop & Hrep1 & Hcap1 & _).
      rewrite Hpop.
      destruct (Z.leb_spec INT_MAX i); [lia |].
      exists q1. auto.
  - simpl in Hrep.
    destruct (represents_pop q x (l1 ++ l2) 0 e Hrep)
      as (q1 & Hpop & Hrep1 & Hcap1 & _).
    rewrite Hpop. inversion Hnn as [| ? ? Hx Hnn']; subst.
    destruct (Z.leb_spec INT_MAX i); [lia |].
    destruct (Z.eqb_spec x NULL); [contradiction |].
    destruct (IH q1 l2 (i + 1) fuel e Hrep1 Hnn' Hl2
                ltac:(simpl in Hfuel; lia) ltac:(lia))
      as (q' & Hloop & Hrep' & Hcap').
    rewrite Hloop. exists q'.
    split; [reflexivity |]. split; [exact Hrep' | congruence].
Qed.

(** [empty] returns the queued references in order up to the first
    NULL one.  On a queue whose entries are [l1] (none NULL, few enough
    for the [int] counter: fewer than [INT_MAX - 1]) followed by [l2],
    where [l2] is nothing or starts with a NULL entry: when [l2] is
    nothing it returns all of [l1], then NULL from the empty queue, and
    leaves the queue empty; when [l2] starts with NULL it stops at that
    entry and what follows it in [l2] stays queued.  [errno] is
    untouched. *)
Theorem empty_stops_at_null (q : ptr_queue) (l1 l2 : list Z)
    (fuel : nat) (e : Z) :
  represents q (l1 ++ l2) ->
  Forall (fun x => x <> NULL) l1 ->
  (l2 = [] \/ exists rest, l2 = NULL :: rest) ->
  (length l1 < fuel)%nat ->
  Z.of_nat (length l1) + 1 < INT_MAX ->
  exists q',
    Testbench.empty fuel (Some q) e
      = Testbench.EmptyDone
          (numbered 1
             (map ev_taken l1
                ++ [EvPop NULL (match l2 with
                                | [] => PopEmpty
                                | _ :: _ => PopTaken
                                end)]))
          (Some q') e /\
    represents q' (tl l2).
Proof.
  intros Hrep Hnn Hl2 Hfuel Hint.
  destruct (empty_loop_spec l1 q l2 1 fuel e Hrep Hnn) as (q' & H1 & H2 & _).
  - intros x l2' ->. destruct Hl2 as [Hnil | (rest & Hr)];
      [discriminate | injection Hr as -> _; reflexivity].
  - exact Hfuel.
  - lia.
  - exists q'. auto.
Qed.

(** The queue of capacity 4 that holds 5, NULL and 9, from slot 3
    round the end of the array. *)
Lemma null_in_the_middle_represents :
  represents (mk_ptr_queue false true 0 [9; 0; 0; 5; NULL] 0 3 1 5 4)
    ([5] ++ [NULL; 9]).
Proof.
  unfold represents, pq_wf, length_spec, ring_idx. simpl.
  split; [lia |]. split; [reflexivity |]. split; [reflexivity |].
  split; [reflexivity |].
  intros [| [| [| i]]] x Hx; simpl in Hx; try discriminate;
    injection Hx as <-; reflexivity.
Qed.

(** [empty] on a queue holding 5, NULL, 9: it returns 5, then the NULL
    entry, and stops; 9 stays queued. *)
Lemma empty_stops_at_null_witness :
  exists q',
    Testbench.empty 2
        (Some (mk_ptr_queue false true 0 [9; 0; 0; 5; NULL] 0 3 1 5 4)) 0
      = Testbench.EmptyDone
          [(1, EvPop 5 PopTaken); (2, EvPop NULL PopTaken)] (Some q') 0 /\
    represents q' [9].
Proof.
  apply (empty_stops_at_null
           (mk_ptr_queue false true 0 [9; 0; 0; 5; NULL] 0 3 1 5 4)
           [5] [NULL; 9] 2 0).
  - exact null_in_the_middle_represents.
  - constructor; [discriminate | constructor].
  - right. exists [9]. reflexivity.
  - simpl. lia.
  - vm_compute. reflexivity.
Defined.

Lemma pq_push_head q p e rv q' e' :
  pq_push (Some q) p e = Returns rv (Some q') e' -> head q' = head q.
Proof.
  unfold pq_push. destruct (mtx q); [discriminate |].
  match goal with |- context [if ?c then _ else _] => destruct c end;
    intros H; injection H as _ <- _; reflexivity.
Qed.

Lemma pq_pop_head q w e x q' e' :
  pq_wf q ->
  pq_pop (Some q) w e = Returns (x, PopTaken) (Some q') e' ->
  head q' = (head q + 1) mod array_capacity q.
Proof.
  intros (Hc & Hh & _). rewrite <- advance_mod by assumption.
  unfold pq_pop, advance.
  destruct (mtx q), (head q =? tail q), (w =? 0); try discriminate;
    intros H; injection H as _ <- _; reflexivity.
Qed.

Lemma iterate_loop_spec n : forall q i e,
  represents q [] -> 2 <= array_capacity q ->
  1 <= i -> i + Z.of_nat n < 2 ^ 64 ->
  exists q',
    Testbench.iterate_loop n i (Some q) e = Testbench.IterDone (Some q') e /\
    represents q' [] /\
    array_capacity q' = array_capacity q /\
    head q' = (head q + Z.of_nat n) mod array_capacity q.
Proof.
  induction n as [| n IH]; intros q i e Hrep Hcap Hi Hbound;
    cbn [Testbench.iterate_loop].
  - exists q. pose proof Hrep as ((Hc & Hh & _) & _).
    rewrite Z.add_0_r, Z.mod_small by lia. auto.
  - destruct (represents_push q [] i e Hrep ltac:(simpl; lia))
      as (q1 & Hpush & Hrep1 & Hcap1 & _).
    rewrite Hpush. cbn [Z.eqb]. simpl in Hrep1.
    destruct (represents_pop q1 i [] 0 e Hrep1) as (q2 & Hpop & Hrep2 & Hcap2 & _).
    rewrite Hpop.
    destruct (Z.eqb_spec i NULL); [unfold NULL in *; lia |].
    rewrite wrap64_small by lia.
    destruct (IH q2 (i + 1) e Hrep2 ltac:(lia) ltac:(lia) ltac:(lia))
      as (q' & Hloop & Hrep' & Hcap' & Hhead').
    exists q'. split; [exact Hloop |]. split; [exact Hrep' |].
    split; [congruence |].
    pose proof Hrep1 as (Hwf1 & _).
    rewrite Hhead', Hcap2, Hcap1.
    rewrite (pq_pop_head q1 0 e i q2 e Hwf1 Hpop).
    rewrite (pq_push_head q i e 0 q1 e Hpush), Hcap1.
    rewrite Z.add_mod_idemp_l by lia. f_equal. lia.
Qed.

(** [iterate] on an empty queue with room for at least one entry runs
    all its rounds without taking either exit: every push succeeds and
    every pop returns the value just pushed.  The queue is empty again
    at the end and its indices have moved on by the number of rounds,
    modulo [array_capacity]. *)
Theorem iterate_completes (q : ptr_queue) (iterations e : Z) :
  represents q [] ->
  2 <= array_capacity q ->
  1 <= iterations < 2 ^ 64 ->
  exists q',
    Testbench.iterate iterations (Some q) e = Testbench.IterDone (Some q') e /\
    represents q' [] /\
    head q' = (head q + (iterations - 1)) mod array_capacity q /\
    tail q' = head q'.
Proof.
  intros Hrep Hcap Hit.
  destruct (iterate_loop_spec (Z.to_nat (iterations - 1)) q 1 e Hrep Hcap)
    as (q' & Hloop & Hrep' & _ & Hhead'); try lia.
  exists q'. unfold Testbench.iterate.
  rewrite Z2Nat.id in Hhead' by lia.
  split; [exact Hloop |]. split; [exact Hrep' |]. split; [exact Hhead' |].
  symmetry. apply (represents_nil_iff q' [] Hrep'). reflexivity.
Qed.

(** [iterate] with the testbench's constants, on the fresh queue. *)
Lemma iterate_completes_witness :
  exists q',
    Testbench.iterate ITERATIONS (Some (fresh_queue QUEUE_CAPACITY)) 0
      = Testbench.IterDone (Some q') 0 /\
    represents q' [] /\
    head q' = (head (fresh_queue QUEUE_CAPACITY) + (ITERATIONS - 1))
              mod array_capacity (fresh_queue QUEUE_CAPACITY) /\
    tail q' = head q'.
Proof.
  apply (iterate_completes (fresh_queue QUEUE_CAPACITY) ITERATIONS 0).
  - apply fresh_queue_represents;
      [unfold QUEUE_CAPACITY; lia | vm_compute; discriminate].
  - vm_compute. discriminate.
  - unfold ITERATIONS. lia.
Defined.

(** The single-threaded part of the testbench's [main], for any
    capacity [N] with [0 < N < INT_MAX - 1] (so that the [int] counter
    of [empty] stays in range) and any iteration count: on the queue of
    [pq_init (N, 0)], [fill] pushes 1, ..., [N] and is refused at
    [N + 1]; [empty] then returns 1, ..., [N] in that order and NULL;
    [iterate] then completes with the queue empty.  What [fill] put in
    is what [empty] takes out. *)
Theorem testbench_sequence (N iterations : Z) :
  0 < N < INT_MAX - 1 ->
  1 <= iterations < 2 ^ 64 ->
  exists q1 q2 q3,
    Testbench.fill (S (Z.to_nat N)) (Some (fresh_queue N)) 0
      = Some (map ev_pushed (count_from (Z.to_nat N) 1)
                ++ [EvPush (N + 1) 1], Some q1, ENOMEM) /\
    Testbench.empty (S (Z.to_nat N)) (Some q1) ENOMEM
      = Testbench.EmptyDone
          (numbered 1 (map ev_taken (count_from (Z.to_nat N) 1)
                         ++ [EvPop NULL PopEmpty])) (Some q2) ENOMEM /\
    Testbench.iterate iterations (Some q2) ENOMEM
      = Testbench.IterDone (Some q3) ENOMEM /\
    represents q3 [].
Proof.
  intros HN Hit. unfold INT_MAX in HN.
  destruct (capacity_fields_small N ltac:(lia)) as [Hcap Hu].
  assert (represents (fresh_queue N) []) as Hrep.
  { apply fresh_queue_represents; lia. }
  assert (array_capacity (fresh_queue N) = N + 1) as Hcapq by exact Hcap.
  destruct (fill_loop_spec (Z.to_nat N) (fresh_queue N) [] 1
              (S (Z.to_nat N)) 0 Hrep)
    as (q1 & Hfill & Hrep1 & Hcap1 & _); try (simpl length; lia).
  simpl app in Hrep1.
  rewrite <- (app_nil_r (count_from _ _)) in Hrep1.
  destruct (empty_loop_spec (count_from (Z.to_nat N) 1) q1 [] 1
              (S (Z.to_nat N)) ENOMEM Hrep1)
    as (q2 & Hempty & Hrep2 & Hcap2).
  { apply count_from_nonnull. lia. }
  { intros; discriminate. }
  { rewrite count_from_length. lia. }
  { rewrite count_from_length. unfold INT_MAX. lia. }
  simpl in Hrep2.
  destruct (iterate_loop_spec (Z.to_nat (iterations - 1)) q2 1 ENOMEM Hrep2)
    as (q3 & Hiter & Hrep3 & _); try lia.
  exists q1, q2, q3. unfold Testbench.fill, Testbench.empty, Testbench.iterate.
  rewrite Hfill, Hempty, Hiter.
  replace (1 + Z.of_nat (Z.to_nat N)) with (N + 1) by lia.
  auto.
Qed.

(** The sequence with the testbench's own constants. *)
Lemma testbench_sequence_witness :
  exists q1 q2 q3,
    Testbench.fill (S (Z.to_nat QUEUE_CAPACITY))
        (Some (fresh_queue QUEUE_CAPACITY)) 0
      = Some (map ev_pushed (count_from (Z.to_nat QUEUE_CAPACITY) 1)
                ++ [EvPush (QUEUE_CAPACITY + 1) 1], Some q1, ENOMEM) /\
    Testbench.empty (S (Z.to_nat QUEUE_CAPACITY)) (Some q1) ENOMEM
      = Testbench.EmptyDone
          (numbered 1
             (map ev_taken (count_from (Z.to_nat QUEUE_CAPACITY) 1)
                ++ [EvPop NULL PopEmpty])) (Some q2) ENOMEM /\
    Testbench.iterate ITERATIONS (Some q2) ENOMEM
      = Testbench.IterDone (Some q3) ENOMEM /\
    represents q3 [].
Proof.
  apply (testbench_sequence QUEUE_CAPACITY ITERATIONS).
  - unfold QUEUE_CAPACITY, INT_MAX. lia.
  - unfold ITERATIONS. lia.
Defined.

(** ** Taking entries and giving as many back *)

(** From a queue holding [l], [k] pops (blocking or not, [k] at most
    the number of entries) followed by [k] pushes of any references all
    succeed: the pops return the [k] oldest entries in order, no push
    is refused, and the queue holds as many entries as before, the
    pushed ones behind the remaining ones.  A pool that was full is
    full again: the next push is refused. *)
Theorem take_then_return (q : ptr_queue) (l ws ps : list Z) (e : Z) :
  represents q l ->
  (length ws <= length l)%nat ->
  length ps = length ws ->
  exists q',
    run (map OpPop ws ++ map OpPush ps) (Some q) e
      = (map ev_taken (take (length ws) l) ++ map ev_pushed ps,
         Some q', e) /\
    represents q' (drop (length ws) l ++ ps) /\
    length (drop (length ws) l ++ ps) = length l /\
    (Z.of_nat (length l) = user_capacity q ->
     forall p, pq_push (Some q') p e = Returns 1 (Some q') ENOMEM).
Proof.
  intros Hrep Hk Hps.
  pose proof (represents_length_le q l Hrep) as Hle.
  pose proof Hrep as (_ & _ & Hu & _).
  rewrite <- (take_drop (length ws) l) in Hrep.
  destruct (run_pops (take (length ws) l) q (drop (length ws) l) ws
              (map OpPush ps) e Hrep)
    as (q1 & Hrep1 & Hcap1 & _ & _ & Hrun1).
  { rewrite length_take. lia. }
  destruct (run_pushes_only q1 (drop (length ws) l) ps e Hrep1)
    as (q' & Hrep' & Hcap' & _ & Hrun2).
  { rewrite length_drop, Hcap1. lia. }
  assert (length (drop (length ws) l ++ ps) = length l) as Hlen.
  { rewrite length_app, length_drop. lia. }
  exists q'. rewrite Hrun1, Hrun2. cbn [prepend].
  split; [reflexivity |]. split; [exact Hrep' |]. split; [exact Hlen |].
  intros Hfull p.
  apply (represents_push_full q' _ p e Hrep'). rewrite Hlen. lia.
Qed.

(** Taking two objects of a pool of three and giving them back in the
    other order. *)
Lemma take_then_return_witness :
  let q := set_sync_ready
             (mk_ptr_queue false false 0 [12288; 12304; 12320; NULL]
                12288 0 3 4 3) in
  let l := [12288; 12304; 12320] in
  exists q',
    run (map OpPop [0; 1] ++ map OpPush [12304; 12288]) (Some q) 0
      = (map ev_taken (take (length [0; 1]) l)
           ++ map ev_pushed [12304; 12288], Some q', 0) /\
    represents q' (drop (length [0; 1]) l ++ [12304; 12288]) /\
    length (drop (length [0; 1]) l ++ [12304; 12288]) = length l /\
    (Z.of_nat (length l) = user_capacity q ->
     forall p, pq_push (Some q') p 0 = Returns 1 (Some q') ENOMEM).
Proof.
  apply (take_then_return
           (set_sync_ready
              (mk_ptr_queue false false 0 [12288; 12304; 12320; NULL]
                 12288 0 3 4 3))
           [12288; 12304; 12320] [0; 1] [12304; 12288] 0).
  - unfold represents, pq_wf, length_spec, ring_idx. simpl.
    split; [lia |]. split; [reflexivity |]. split; [reflexivity |].
    split; [reflexivity |].
    intros [| [| [| i]]] x Hx; simpl in Hx; try discriminate;
      injection Hx as <-; reflexivity.
  - simpl. lia.
  - reflexivity.
Defined.

(** ** A successful pool initialisation *)

(** For [0 < count < 2^32 - 1], [obj_size > 0] and a region that fits
    [size_t], when the three allocations succeed [pq_init] returns a
    queue and leaves [errno] untouched; the queue has its mutex and
    condition variable initialised, [buf] at the region,
    [user_capacity = count], [array_capacity = count + 1], it holds the
    addresses of the [count] objects in order, and it is full: any
    further push is refused with [ENOMEM]. *)
Theorem pq_init_pool_success
    (count obj_size p d b : Z) (rest lv : list Z) (e : Z) :
  0 < count < 2 ^ 32 - 1 ->
  0 < obj_size -> count * obj_size < 2 ^ 64 ->
  p <> NULL -> d <> NULL -> b <> NULL ->
  exists q,
    pq_init count obj_size (mk_heap (p :: d :: b :: rest) lv) e
      = Returns (mk_heap rest (b :: d :: p :: lv)) (Some q) e /\
    sync_ready q = true /\ buf q = b /\
    user_capacity q = count /\ array_capacity q = count + 1 /\
    represents q (pool_refs (Z.to_nat count) 0 obj_size b) /\
    forall x e0, pq_push (Some q) x e0 = Returns 1 (Some q) ENOMEM.
Proof.
  intros Hcount Hs Hfit Hp Hd Hb.
  destruct (capacity_fields_small count ltac:(lia)) as [Hcap Hu].
  rewrite pq_init_pool_eq by (assumption || lia).
  destruct (init_fill_exact obj_size b (Z.to_nat count) 0
              (set_buf (blank_queue count) b) [] e)
    as (q' & Hfill & Hrep & Hcapq & Hbufq).
  { apply (blank_queue_represents count); lia. }
  { simpl. lia. }
  rewrite Hfill. cbn [option_map]. simpl in Hrep.
  change (array_capacity (set_buf (blank_queue count) b))
    with (wrap32 (wrap64 (count + 1))) in Hcapq.
  assert (represents (set_sync_ready q')
            (pool_refs (Z.to_nat count) 0 obj_size b)) as Hrep' by exact Hrep.
  exists (set_sync_ready q').
  split; [reflexivity |]. split; [reflexivity |].
  split; [exact Hbufq |].
  pose proof Hrep as (_ & _ & Huq & _).
  split; [simpl; lia |]. split; [simpl; lia |].
  split; [exact Hrep' |].
  intros x e0. apply (represents_push_full _ _ x e0 Hrep').
  rewrite pool_refs_length. simpl. lia.
Qed.

(** A pool of three 16-byte objects. *)
Lemma pq_init_pool_success_witness :
  exists q,
    pq_init 3 16 (mk_heap [4096; 8192; 12288] []) 5
      = Returns (mk_heap [] [12288; 8192; 4096]) (Some q) 5 /\
    sync_ready q = true /\ buf q = 12288 /\
    user_capacity q = 3 /\ array_capacity q = 3 + 1 /\
    represents q (pool_refs (Z.to_nat 3) 0 16 12288) /\
    forall x e0, pq_push (Some q) x e0 = Returns 1 (Some q) ENOMEM.
Proof.
  apply (pq_init_pool_success 3 16 4096 8192 12288 [] [] 5);
    (lia || discriminate).
Defined.
